(** * Fuzzy-logic paddle controller for Pong (Pong.py, class FuzzyPlayer)

    A shallow embedding of the controller, of [Racket.move], and of the
    library routines the controller relies on (numpy's [linspace], [interp]
    and [copysign], scikit-fuzzy's [trimf], [trapmf] and
    [interp_membership]).

    Numbers.  The controller is embedded twice.  In the first embedding
    Python floats are exact rationals [Q]: every arithmetic operation is the
    exact one, so its theorems describe the controller up to floating-point
    rounding.  The second embedding, module [B64], computes in binary64 as
    Python and numpy do; it settles what holds of the rounded numbers
    themselves.  Integers (pygame sizes and coordinates, [max_speed]) are
    [Z]. *)

From Stdlib Require Import QArith Qabs Qminmax Qreduction Lqa ZArith Lia.
From Stdlib Require Import List Bool Morphisms.
From Stdlib Require PrimFloat SpecFloat FloatOps.
Import ListNotations.

Set Warnings "-inexact-float".

Local Open Scope Q_scope.

(** ** Python and numpy scalar primitives *)

Module Py.

Definition ltb (x y : Q) : bool := negb (Qle_bool y x).
Definition leb (x y : Q) : bool := Qle_bool x y.
Definition eqb (x y : Q) : bool := Qeq_bool x y.

(** [float(x)]: one number has one float; the canonical fraction plays that
    role here. *)
Definition float (x : Q) : Q := Qred x.

(** [min(a, b)] keeps its first argument unless the second is smaller,
    [max(a, b)] unless the second is larger. *)
Definition min (a b : Q) : Q := if ltb b a then b else a.
Definition max (a b : Q) : Q := if ltb a b then b else a.

(** [a / b] raises ZeroDivisionError on a zero divisor. *)
Definition div (a b : Q) : option Q :=
  if eqb b 0 then None else Some (a / b).

(** [np.copysign(m, s)]: the magnitude of [m] with the sign of [s] (a zero
    made from an integer carries the positive sign). *)
Definition copysign (m s : Q) : Q :=
  if ltb s 0 then - Qabs m else Qabs m.

Definition bind {A B : Type} (m : option A) (k : A -> option B) : option B :=
  match m with
  | Some a => k a
  | None => None
  end.

End Py.

Notation "x <- m ;; k" := (Py.bind m (fun x => k))
  (at level 61, m at next level, right associativity).

(** ** numpy and scikit-fuzzy array routines *)

Module Fuzz.

Import Py.

(** [np.linspace(start, stop, num)]: [arange(0, num) * step + start] with
    [step = (stop - start) / (num - 1)].  (numpy then overwrites the last
    sample with [stop], which is the same number in exact arithmetic.) *)
Definition linspace (start stop : Q) (num : nat) : list Q :=
  let step := (stop - start) / inject_Z (Z.of_nat (num - 1)) in
  map (fun i => inject_Z (Z.of_nat i) * step + start) (seq 0 num).

(** [fuzz.trimf] at one sample point: the array starts at zero, the rising
    and the falling side are filled in, then the peak is set to one. *)
Definition trimf1 (a b c x : Q) : Q :=
  let y := 0 in
  let y := if negb (eqb a b) && ltb a x && ltb x b
           then (x - a) / (b - a) else y in
  let y := if negb (eqb b c) && ltb b x && ltb x c
           then (c - x) / (c - b) else y in
  if eqb x b then 1 else y.

Definition trimf (xs : list Q) (a b c : Q) : list Q :=
  map (trimf1 a b c) xs.

(** [fuzz.trapmf] at one sample point: the array starts at one and is
    overwritten, in this order, left of [b], right of [c], below [a] and
    above [d]. *)
Definition trapmf1 (a b c d x : Q) : Q :=
  let y := 1 in
  let y := if leb x b then trimf1 a b b x else y in
  let y := if leb c x then trimf1 c c d x else y in
  let y := if ltb x a then 0 else y in
  if ltb d x then 0 else y.

Definition trapmf (xs : list Q) (a b c d : Q) : list Q :=
  map (trapmf1 a b c d) xs.

(** One segment of [np.interp]: [slope * (x - x0) + f0]. *)
Definition lerp (x0 f0 x1 f1 x : Q) : Q :=
  (f1 - f0) / (x1 - x0) * (x - x0) + f0.

(** Scan of the sample points to the right of [(x0, f0)], for [x0 <= x]. *)
Fixpoint interp_scan (x x0 f0 : Q) (xp fp : list Q) : Q :=
  match xp, fp with
  | x1 :: xp', f1 :: fp' =>
      if ltb x x1 then lerp x0 f0 x1 f1 x
      else interp_scan x x1 f1 xp' fp'
  | _, _ => f0
  end.

(** [np.interp(x, xp, fp, left, right)]: [left] below the first sample
    point and [right] above the last one ([None] stands for numpy's default,
    the first and the last sample value). *)
Definition np_interp (x : Q) (xp fp : list Q) (left right : option Q) : Q :=
  match xp, fp with
  | x0 :: xp', f0 :: fp' =>
      if ltb x x0 then
        match left with Some l => l | None => f0 end
      else if ltb (last xp x0) x then
        match right with Some r => r | None => last fp f0 end
      else interp_scan x x0 f0 xp' fp'
  | _, _ => 0
  end.

(** [fuzz.interp_membership(x, xmf, xx, zero_outside_x)].  Releases of
    scikit-fuzzy differ in the default of [zero_outside_x]; it is kept as an
    argument. *)
Definition interp_membership (zero_outside_x : bool)
    (x xmf : list Q) (xx : Q) : Q :=
  if zero_outside_x then np_interp xx x xmf (Some 0) (Some 0)
  else np_interp xx x xmf None None.

End Fuzz.

(** ** Game objects *)

Record Board := mkBoard {
  surface_width : Z;
  surface_height : Z
}.

Record Racket := mkRacket {
  rect_x : Z;
  width : Z;
  max_speed : Z
}.

(** Keys of the membership dictionaries and of [velocity_fx]. *)
Module X.
Inductive label := far_right | right | center | left | far_left.
End X.

Module Y.
Inductive label := near | mid | far.
End Y.

Module V.
Inductive label :=
  fast_left | mid_left | drift_left | stop
| drift_right | mid_right | fast_right.
End V.

(** A [FuzzyPlayer]: the racket and the board it was built with, and the
    one field it updates, [_prev_y_abs].  The attributes computed by
    [__init__] are functions of the racket and the board below. *)
Record FuzzyPlayer := mkFuzzyPlayer {
  racket : Racket;
  board : Board;
  prev_y_abs : option Q
}.

(** What one call of [act] does: the velocity it settled on and the
    argument of its [move] call. *)
Record Action := mkAction {
  velocity : Q;
  move_to : Q
}.

Section Controller.

Import Py.

(** scikit-fuzzy's [zero_outside_x] default. *)
Variable zero_outside_x : bool.

(** pygame's storage of a float coordinate in the integer field [rect.x]. *)
Variable rect_coerce : Q -> Z.

(** [Racket.move] *)
Definition Racket_move (r : Racket) (x : Q) (b : Board) : Racket :=
  let ms := inject_Z (max_speed r) in
  let rx := inject_Z (rect_x r) in
  let delta := x - rx in
  let delta := if ltb ms delta then ms else delta in
  let delta := if ltb delta (- ms) then - ms else delta in
  let delta := if ltb (rx + delta) 0 then 0 else delta in
  let delta :=
    if ltb (inject_Z (surface_width b)) (rx + inject_Z (width r) + delta)
    then 0 else delta in
  mkRacket (rect_coerce (rx + delta)) (width r) (max_speed r).

(** [Player.move] *)
Definition move (p : FuzzyPlayer) (x : Q) : FuzzyPlayer :=
  mkFuzzyPlayer (Racket_move (racket p) x (board p)) (board p) (prev_y_abs p).

(** Attributes set by [FuzzyPlayer.__init__]. *)
Definition W (p : FuzzyPlayer) : Q := inject_Z (surface_width (board p)).
Definition H (p : FuzzyPlayer) : Q := inject_Z (surface_height (board p)).
Definition VMAX (p : FuzzyPlayer) : Q := inject_Z (max_speed (racket p)).
Definition PW (p : FuzzyPlayer) : Q := inject_Z (width (racket p)).

Definition x_universe (p : FuzzyPlayer) : list Q :=
  Fuzz.linspace (- W p / 2) (W p / 2)
    (Z.to_nat (surface_width (board p)) + 1).

Definition y_universe (p : FuzzyPlayer) : list Q :=
  Fuzz.linspace 0 (H p) (Z.to_nat (surface_height (board p)) + 1).

Definition span (p : FuzzyPlayer) : Q := W p / 2.

Definition x_mf (p : FuzzyPlayer) (n : X.label) : list Q :=
  let span := span p in
  match n with
  | X.far_right =>
      Fuzz.trapmf (x_universe p)
        (- span) (- span) (- 0.22 * span) (- 0.14 * span)
  | X.right =>
      Fuzz.trimf (x_universe p)
        (- 0.18 * span) (- 0.09 * span) (- 0.035 * span)
  | X.center =>
      Fuzz.trimf (x_universe p) (- 0.05 * span) 0 (0.05 * span)
  | X.left =>
      Fuzz.trimf (x_universe p) (0.035 * span) (0.09 * span) (0.18 * span)
  | X.far_left =>
      Fuzz.trapmf (x_universe p) (0.14 * span) (0.22 * span) span span
  end.

Definition y_mf (p : FuzzyPlayer) (n : Y.label) : list Q :=
  match n with
  | Y.near => Fuzz.trapmf (y_universe p) 0 0 (0.30 * H p) (0.55 * H p)
  | Y.mid =>
      Fuzz.trimf (y_universe p) (0.48 * H p) (0.68 * H p) (0.85 * H p)
  | Y.far =>
      Fuzz.trapmf (y_universe p) (0.78 * H p) (0.92 * H p) (H p) (H p)
  end.

(** [self.velocity_fx] *)
Definition velocity_fx (p : FuzzyPlayer) (n : V.label) (xd yd : Q) : Q :=
  let V := VMAX p in
  match n with
  | V.fast_left => - 1.00 * V
  | V.mid_left => - 0.90 * V
  | V.drift_left => - 0.70 * V
  | V.stop => 0
  | V.drift_right => 0.70 * V
  | V.mid_right => 0.90 * V
  | V.fast_right => 1.00 * V
  end.

Definition dead_x : Q := 1.2.
Definition cutoff_v : Q := 0.10.
Definition boost_gain : Q := 1.10.

(** [_mf_x_map], [_mf_y_map] *)
Definition mf_x_map (p : FuzzyPlayer) (x_val : Q) (n : X.label) : Q :=
  Fuzz.interp_membership zero_outside_x (x_universe p) (x_mf p n) x_val.

Definition mf_y_map (p : FuzzyPlayer) (y_abs : Q) (n : Y.label) : Q :=
  Fuzz.interp_membership zero_outside_x (y_universe p) (y_mf p n) y_abs.

(** [_edge_shift] *)
Definition edge_weight (p : FuzzyPlayer) (y_abs : Q) : Q :=
  let y := mf_y_map p y_abs in
  0.9 * y Y.near + 0.4 * y Y.mid + 0.05 * y Y.far.

Definition edge_shift (p : FuzzyPlayer) (y_abs x_val : Q) : Q :=
  let w := edge_weight p y_abs in
  let base := 0.25 * PW p in
  let shift := w * base in
  copysign shift x_val.

(** [_tsk_velocity], in its four stages: the corrected offset, the rule
    list, the accumulation loop with the guarded division, and the cutoff. *)
Definition x_edge_of (p : FuzzyPlayer) (x_val y_abs : Q) : Q :=
  x_val - edge_shift p y_abs x_val.

Definition tsk_rules (p : FuzzyPlayer) (x_edge y_abs : Q)
    : list (Q * V.label) :=
  let x := mf_x_map p x_edge in
  let y := mf_y_map p y_abs in
  [ (x X.far_left, V.fast_left);
    (x X.far_right, V.fast_right);
    (min (x X.left) (y Y.near), V.fast_left);
    (min (x X.right) (y Y.near), V.fast_right);
    (min (x X.left) (y Y.mid), V.mid_left);
    (min (x X.right) (y Y.mid), V.mid_right);
    (min (x X.left) (y Y.far), V.drift_left);
    (min (x X.right) (y Y.far), V.drift_right);
    (x X.center, V.stop) ].

Definition tsk_step (p : FuzzyPlayer) (x_edge y_abs : Q)
    (acc : Q * Q) (rule : Q * V.label) : Q * Q :=
  let '(num, den) := acc in
  let '(w_act, fx) := rule in
  if leb w_act 0 then (num, den)
  else
    let z := velocity_fx p fx x_edge y_abs in
    (num + w_act * z, den + w_act).

Definition tsk_sums (p : FuzzyPlayer) (x_edge y_abs : Q)
    (rules : list (Q * V.label)) : Q * Q :=
  fold_left (tsk_step p x_edge y_abs) rules (0, 0).

Definition tsk_aggregate (p : FuzzyPlayer) (x_edge y_abs : Q) : option Q :=
  let '(num, den) := tsk_sums p x_edge y_abs (tsk_rules p x_edge y_abs) in
  if leb den (1 # 1000000000) then Some 0 else div num den.

Definition tsk_cutoff (v : Q) : Q :=
  if ltb (Qabs v) cutoff_v then 0 else v.

Definition tsk_velocity (p : FuzzyPlayer) (x_val y_abs : Q) : option Q :=
  let x_edge := x_edge_of p x_val y_abs in
  v <- tsk_aggregate p x_edge y_abs ;;
  Some (tsk_cutoff v).

(** [act], in three stages: the boost of a velocity, the velocity before the
    boost (dead zone or inference; [infer] is the inference routine called,
    [_tsk_velocity]), and the whole call. *)
Definition boosted (p : FuzzyPlayer) (x_val y_abs v : Q) : Q :=
  match prev_y_abs p with
  | Some prev =>
      if negb (eqb v 0) && leb dead_x (Qabs x_val) then
        if ltb y_abs (prev - 0.001) then
          let v := v * boost_gain in
          max (- VMAX p) (min (VMAX p) v)
        else v
      else v
  | None => v
  end.

Definition base_velocity (infer : FuzzyPlayer -> Q -> Q -> option Q)
    (p : FuzzyPlayer) (x_val y_abs : Q) : option Q :=
  if ltb (Qabs x_val) dead_x then Some 0 else infer p x_val y_abs.

Definition act_with (infer : FuzzyPlayer -> Q -> Q -> option Q)
    (p : FuzzyPlayer) (x_diff y_diff : Q)
    : option (FuzzyPlayer * Action) :=
  let x_val := float x_diff in
  let y_abs := float (Qabs y_diff) in
  v <- base_velocity infer p x_val y_abs ;;
  let v := boosted p x_val y_abs v in
  let p := mkFuzzyPlayer (racket p) (board p) (Some y_abs) in
  let target := inject_Z (rect_x (racket p)) + v in
  Some (move p target, mkAction v target).

Definition act : FuzzyPlayer -> Q -> Q -> option (FuzzyPlayer * Action) :=
  act_with tsk_velocity.

(** [FuzzyPlayer.__init__] *)
Definition FuzzyPlayer_init (r : Racket) (b : Board) : FuzzyPlayer :=
  mkFuzzyPlayer r b None.

(** The game loop's calls of [act] on one player, tick after tick. *)
Fixpoint run (p : FuzzyPlayer) (ticks : list (Q * Q)) : option (list Action) :=
  match ticks with
  | [] => Some []
  | (x_diff, y_diff) :: ticks' =>
      r <- act p x_diff y_diff ;;
      rest <- run (fst r) ticks' ;;
      Some (snd r :: rest)
  end.

End Controller.

(** [PongGame.__init__] places the player's paddle at [x = width // 2]. *)
Definition PongGame_player (w h pw ms : Z) : FuzzyPlayer :=
  FuzzyPlayer_init (mkRacket (w / 2) pw ms) (mkBoard w h).

(** The program's own configuration: [PongGame(800, 400, ...)] with the
    default racket (width 80, max speed 10). *)
Definition main_board : Board := mkBoard 800 400.
Definition main_racket : Racket := mkRacket 400 80 10.
Definition main_player : FuzzyPlayer := mkFuzzyPlayer main_racket main_board None.

(** The same board and racket at any paddle position and with any
    remembered distance, and a racket of max speed 1. *)
Definition game_player (rx : Z) (prev : option Q) : FuzzyPlayer :=
  mkFuzzyPlayer (mkRacket rx 80 10) (mkBoard 800 400) prev.

Definition slow_player : FuzzyPlayer :=
  mkFuzzyPlayer (mkRacket 400 80 1) main_board None.

(** Truncation towards zero, one possible [rect_coerce]. *)
Definition rect_trunc (q : Q) : Z := Z.quot (Qnum q) (Zpos (Qden q)).

(** ** Vocabulary of the statements *)

(** The membership function behind each entry of [x_mf] and [y_mf]. *)
Definition x_shape (p : FuzzyPlayer) (n : X.label) : Q -> Q :=
  let span := span p in
  match n with
  | X.far_right =>
      Fuzz.trapmf1 (- span) (- span) (- 0.22 * span) (- 0.14 * span)
  | X.right =>
      Fuzz.trimf1 (- 0.18 * span) (- 0.09 * span) (- 0.035 * span)
  | X.center =>
      Fuzz.trimf1 (- 0.05 * span) 0 (0.05 * span)
  | X.left =>
      Fuzz.trimf1 (0.035 * span) (0.09 * span) (0.18 * span)
  | X.far_left =>
      Fuzz.trapmf1 (0.14 * span) (0.22 * span) span span
  end.

Definition y_shape (p : FuzzyPlayer) (n : Y.label) : Q -> Q :=
  match n with
  | Y.near => Fuzz.trapmf1 0 0 (0.30 * H p) (0.55 * H p)
  | Y.mid => Fuzz.trimf1 (0.48 * H p) (0.68 * H p) (0.85 * H p)
  | Y.far => Fuzz.trapmf1 (0.78 * H p) (0.92 * H p) (H p) (H p)
  end.

Definition x_shape_sum (p : FuzzyPlayer) (u : Q) : Q :=
  x_shape p X.far_left u + x_shape p X.left u + x_shape p X.center u +
  x_shape p X.right u + x_shape p X.far_right u.

(** The sum of the five horizontal degrees at [x]. *)
Definition mf_x_sum (zo : bool) (p : FuzzyPlayer) (x : Q) : Q :=
  mf_x_map zo p x X.far_left + mf_x_map zo p x X.left +
  mf_x_map zo p x X.center + mf_x_map zo p x X.right +
  mf_x_map zo p x X.far_right.

(** The label on the other side of the paddle. *)
Definition X_mirror (n : X.label) : X.label :=
  match n with
  | X.far_right => X.far_left
  | X.right => X.left
  | X.center => X.center
  | X.left => X.right
  | X.far_left => X.far_right
  end.

(** Sample points in increasing order, the segment [i] of a sampled
    function that holds [x], and the interpolated value there. *)
Fixpoint ascending (x0 : Q) (xp : list Q) : Prop :=
  match xp with
  | [] => True
  | x1 :: xp' => x0 < x1 /\ ascending x1 xp'
  end.

Definition on_seg (xp : list Q) (x : Q) (i : nat) : Prop :=
  (S i < length xp)%nat /\ nth i xp 0 <= x <= nth (S i) xp 0.

Definition seg_val (xp fp : list Q) (i : nat) (x : Q) : Q :=
  Fuzz.lerp (nth i xp 0) (nth i fp 0) (nth (S i) xp 0) (nth (S i) fp 0) x.

(** The [i]-th point of a [linspace], and a function sampled on the
    [linspace] of [m + 2] points from [a] to [b], read back at [x]. *)
Definition grid_point (start step : Q) (i : nat) : Q :=
  inject_Z (Z.of_nat i) * step + start.

Definition sampled (zo : bool) (a b : Q) (m : nat) (f : Q -> Q) (x : Q) : Q :=
  Fuzz.interp_membership zo
    (Fuzz.linspace a b (S (S m))) (map f (Fuzz.linspace a b (S (S m)))) x.

Definition x_cells (p : FuzzyPlayer) : nat :=
  (Z.to_nat (surface_width (board p)) - 1)%nat.

Definition y_cells (p : FuzzyPlayer) : nat :=
  (Z.to_nat (surface_height (board p)) - 1)%nat.

(** The aggregation as the specification words it: nine rules, each a
    weight and a consequent that is a fixed multiple of the max speed; the
    rules of positive weight; their total weight and weighted sum. *)
Definition spec_scale (n : V.label) : Q :=
  match n with
  | V.fast_left => - 1.0
  | V.mid_left => - 0.9
  | V.drift_left => - 0.7
  | V.stop => 0
  | V.drift_right => 0.7
  | V.mid_right => 0.9
  | V.fast_right => 1.0
  end.

Definition spec_rule_base (x : X.label -> Q) (y : Y.label -> Q)
    : list (Q * V.label) :=
  [ (x X.far_left, V.fast_left);
    (x X.far_right, V.fast_right);
    (Qmin (x X.left) (y Y.near), V.fast_left);
    (Qmin (x X.right) (y Y.near), V.fast_right);
    (Qmin (x X.left) (y Y.mid), V.mid_left);
    (Qmin (x X.right) (y Y.mid), V.mid_right);
    (Qmin (x X.left) (y Y.far), V.drift_left);
    (Qmin (x X.right) (y Y.far), V.drift_right);
    (x X.center, V.stop) ].

Definition spec_firing (rules : list (Q * V.label)) : list (Q * V.label) :=
  filter (fun r => Py.ltb 0 (fst r)) rules.

Fixpoint spec_total_weight (rules : list (Q * V.label)) : Q :=
  match rules with
  | [] => 0
  | (w, _) :: rules' => w + spec_total_weight rules'
  end.

Fixpoint spec_weighted_sum (vmax : Q) (rules : list (Q * V.label)) : Q :=
  match rules with
  | [] => 0
  | (w, n) :: rules' => w * (spec_scale n * vmax) + spec_weighted_sum vmax rules'
  end.

Definition same_rules (r1 r2 : list (Q * V.label)) : Prop :=
  Forall2 (fun a b => fst a == fst b /\ snd a = snd b) r1 r2.

(** A weight as the loop counts it: itself when positive, nothing
    otherwise. *)
Definition gated (w : Q) : Q := if Py.ltb 0 w then w else 0.

(** Invariant of the accumulation loop: the numerator stays within
    [vmax] times the denominator. *)
Definition balanced (vmax : Q) (acc : Q * Q) : Prop :=
  0 <= snd acc /\ - vmax * snd acc <= fst acc <= vmax * snd acc.

(** Clamping to [[-vmax, vmax]] as [act] writes it, the condition under
    which [act] boosts, and the result of [act] once the boosted velocity
    [v] is known. *)
Definition clamp (vmax v : Q) : Q := Py.max (- vmax) (Py.min vmax v).

Definition boost_condition (p : FuzzyPlayer) (x_val y_abs v : Q) : Prop :=
  (exists prev, prev_y_abs p = Some prev /\ y_abs < prev - 0.001) /\
  ~ v == 0 /\ dead_x <= Qabs x_val.

Definition after_act (rc : Q -> Z) (p : FuzzyPlayer) (y_abs v : Q)
    : FuzzyPlayer * Action :=
  let target := inject_Z (rect_x (racket p)) + v in
  (move rc (mkFuzzyPlayer (racket p) (board p) (Some y_abs)) target,
   mkAction v target).

(** Input sequences that are the same numbers, and players that differ at
    most in where their paddle is. *)
Definition same_ticks : list (Q * Q) -> list (Q * Q) -> Prop :=
  Forall2 (fun t t' => fst t == fst t' /\ snd t == snd t').

Definition same_setup (p q : FuzzyPlayer) : Prop :=
  board p = board q /\ width (racket p) = width (racket q) /\
  max_speed (racket p) = max_speed (racket q) /\
  prev_y_abs p = prev_y_abs q.

(** ** The other players, the keys and the game loop *)

(** What the paddle theorems ask of pygame's storage of a coordinate: an
    integer is stored as it is, and a larger number is not stored as a
    smaller one. *)
Definition stores_integers (rc : Q -> Z) : Prop :=
  forall z : Z, rc (inject_Z z) = z.

Definition stores_in_order (rc : Q -> Z) : Prop :=
  forall q q' : Q, q <= q' -> (rc q <= rc q')%Z.

(** The paddle lies within the board. *)
Definition on_board (r : Racket) (b : Board) : Prop :=
  (0 <= rect_x r /\ rect_x r + width r <= surface_width b)%Z.

(** The step [Racket.move] settles on before it updates [rect.x]. *)
Definition Racket_delta (r : Racket) (x : Q) (b : Board) : Q :=
  let ms := inject_Z (max_speed r) in
  let rx := inject_Z (rect_x r) in
  let delta := x - rx in
  let delta := if Py.ltb ms delta then ms else delta in
  let delta := if Py.ltb delta (- ms) then - ms else delta in
  let delta := if Py.ltb (rx + delta) 0 then 0 else delta in
  if Py.ltb (inject_Z (surface_width b)) (rx + inject_Z (width r) + delta)
  then 0 else delta.

(** [NaiveOponent.act]: the offsets are ignored, the paddle is sent to
    the ball's centre ([ball_centerx] is [self.ball.rect.centerx]). *)
Definition NaiveOponent_act (rc : Q -> Z) (r : Racket) (b : Board)
    (ball_centerx : Z) (x_diff y_diff : Z) : Racket :=
  let x_cent := ball_centerx in
  Racket_move rc r (inject_Z x_cent) b.

(** Calls of [NaiveOponent.act], one per tick, while the ball stays at
    one x. *)
Fixpoint NaiveOponent_track (rc : Q -> Z) (r : Racket) (b : Board)
    (ball_centerx : Z) (diffs : list (Z * Z)) : Racket :=
  match diffs with
  | [] => r
  | (x_diff, y_diff) :: diffs' =>
      NaiveOponent_track rc
        (NaiveOponent_act rc r b ball_centerx x_diff y_diff) b
        ball_centerx diffs'
  end.

(** The arrow keys as [PongGame.handle_events] reads them (LEFT wins over
    RIGHT), [HumanPlayer.move_manual], and the key part of
    [handle_events] for a human player. *)
Inductive Keys := K_LEFT | K_RIGHT | K_NONE.

Definition HumanPlayer_move_manual (rc : Q -> Z) (r : Racket) (b : Board)
    (x : Z) : Racket :=
  Racket_move rc r (inject_Z x) b.

Definition handle_keys (rc : Q -> Z) (r : Racket) (b : Board) (keys : Keys)
    : Racket :=
  match keys with
  | K_LEFT => HumanPlayer_move_manual rc r b 0
  | K_RIGHT => HumanPlayer_move_manual rc r b (surface_width b)
  | K_NONE => r
  end.

(** The player after the game loop's calls of [act], tick after tick. *)
Fixpoint run_state (zo : bool) (rc : Q -> Z) (p : FuzzyPlayer)
    (ticks : list (Q * Q)) : option FuzzyPlayer :=
  match ticks with
  | [] => Some p
  | (x_diff, y_diff) :: ticks' =>
      r <- act zo rc p x_diff y_diff ;;
      run_state zo rc (fst r) ticks'
  end.

(** The blend of [_edge_shift] and the sum of the vertical degrees, on the
    shapes and on the sampled degrees. *)
Definition y_weight_shape (p : FuzzyPlayer) (u : Q) : Q :=
  0.9 * y_shape p Y.near u + 0.4 * y_shape p Y.mid u +
  0.05 * y_shape p Y.far u.

Definition y_shape_sum (p : FuzzyPlayer) (u : Q) : Q :=
  y_shape p Y.near u + y_shape p Y.mid u + y_shape p Y.far u.

Definition mf_y_sum (zo : bool) (p : FuzzyPlayer) (y : Q) : Q :=
  mf_y_map zo p y Y.near + mf_y_map zo p y Y.mid + mf_y_map zo p y Y.far.

(** Weights of the left-hand and of the right-hand rules, as the loop
    counts them. *)
Definition left_pull (x : X.label -> Q) (y : Y.label -> Q) : Q * Q * Q :=
  (gated (x X.far_left) + gated (Qmin (x X.left) (y Y.near)),
   gated (Qmin (x X.left) (y Y.mid)),
   gated (Qmin (x X.left) (y Y.far))).

Definition right_pull (x : X.label -> Q) (y : Y.label -> Q) : Q * Q * Q :=
  (gated (x X.far_right) + gated (Qmin (x X.right) (y Y.near)),
   gated (Qmin (x X.right) (y Y.mid)),
   gated (Qmin (x X.right) (y Y.far))).

(** ** The controller in binary64

    The same routines with Python's own number type, the IEEE 754 double
    ([float] below is Rocq's primitive binary64 type, rounding to nearest
    even): every operation rounds where Python and numpy round, in the
    order the source writes them. *)

Module B64.

Import PrimFloat SpecFloat FloatOps.

Local Open Scope float_scope.

(** [float(n)] for an integer [n]: the nearest double. *)
Definition of_int (z : Z) : float :=
  SF2Prim (binary_normalize prec emax z 0 false).

Definition min (a b : float) : float := if b <? a then b else a.
Definition max (a b : float) : float := if a <? b then b else a.

(** [np.copysign(m, s)]: the magnitude of [m] with the sign bit of [s]. *)
Definition copysign (m s : float) : float :=
  if get_sign s then - abs m else abs m.

(** [np.linspace(start, stop, num)]: [arange(0, num) * step + start] with
    [step = (stop - start) / (num - 1)] (a zero step divides first), and
    the last sample overwritten with [stop]. *)
Definition linspace (start stop : float) (num : nat) : list float :=
  let div := of_int (Z.of_nat num - 1) in
  let delta := stop - start in
  let y := map (fun i => of_int (Z.of_nat i)) (seq 0 num) in
  let y :=
    if (1 <? num)%nat then
      let step := delta / div in
      if step =? 0 then map (fun i => i / div * delta) y
      else map (fun i => i * step) y
    else map (fun i => i * delta) y in
  let y := map (fun i => i + start) y in
  if (1 <? num)%nat then removelast y ++ [stop] else y.

Definition trimf1 (a b c x : float) : float :=
  let y := 0 in
  let y := if negb (a =? b) && (a <? x) && (x <? b)
           then (x - a) / (b - a) else y in
  let y := if negb (b =? c) && (b <? x) && (x <? c)
           then (c - x) / (c - b) else y in
  if x =? b then 1 else y.

Definition trimf (xs : list float) (a b c : float) : list float :=
  map (trimf1 a b c) xs.

Definition trapmf1 (a b c d x : float) : float :=
  let y := 1 in
  let y := if x <=? b then trimf1 a b b x else y in
  let y := if c <=? x then trimf1 c c d x else y in
  let y := if x <? a then 0 else y in
  if d <? x then 0 else y.

Definition trapmf (xs : list float) (a b c d : float) : list float :=
  map (trapmf1 a b c d) xs.

(** One segment of [np.interp]: the left sample itself at the left sample
    point, else [slope * (x - x0) + f0], computed from the right sample
    when that is not a number. *)
Definition lerp (x0 f0 x1 f1 x : float) : float :=
  if x0 =? x then f0
  else
    let slope := (f1 - f0) / (x1 - x0) in
    let r := slope * (x - x0) + f0 in
    if is_nan r then
      let r := slope * (x - x1) + f1 in
      if is_nan r && (f0 =? f1) then f0 else r
    else r.

Fixpoint interp_scan (x x0 f0 : float) (xp fp : list float) : float :=
  match xp, fp with
  | x1 :: xp', f1 :: fp' =>
      if x <? x1 then lerp x0 f0 x1 f1 x
      else interp_scan x x1 f1 xp' fp'
  | _, _ => f0
  end.

Definition np_interp (x : float) (xp fp : list float)
    (left right : option float) : float :=
  match xp, fp with
  | x0 :: xp', f0 :: fp' =>
      if is_nan x then x
      else if last xp x0 <? x then
        match right with Some r => r | None => last fp f0 end
      else if x <? x0 then
        match left with Some l => l | None => f0 end
      else interp_scan x x0 f0 xp' fp'
  | _, _ => 0
  end.

Definition interp_membership (zero_outside_x : bool)
    (x xmf : list float) (xx : float) : float :=
  if zero_outside_x then np_interp xx x xmf (Some 0) (Some 0)
  else np_interp xx x xmf None None.

(** A Python number: [Racket.move] mixes integers and floats.  Mixed
    arithmetic converts the integer to a float; integers are compared with
    floats through the same conversion, which is exact for the integers
    a double represents. *)
Inductive number := Int (z : Z) | Float (f : float).

Definition to_float (n : number) : float :=
  match n with Int z => of_int z | Float f => f end.

Definition num_add (a b : number) : number :=
  match a, b with
  | Int x, Int y => Int (x + y)
  | _, _ => Float (to_float a + to_float b)
  end.

Definition num_sub (a b : number) : number :=
  match a, b with
  | Int x, Int y => Int (x - y)
  | _, _ => Float (to_float a - to_float b)
  end.

Definition num_ltb (a b : number) : bool :=
  match a, b with
  | Int x, Int y => (x <? y)%Z
  | _, _ => to_float a <? to_float b
  end.

Record FuzzyPlayer := mkFuzzyPlayer {
  racket : Racket;
  board : Board;
  prev_y_abs : option float
}.

Record Action := mkAction {
  velocity : float;
  move_to : float
}.

Section Controller.

Variable zero_outside_x : bool.

(** pygame's storage of a float coordinate in the integer field [rect.x]. *)
Variable rect_coerce : float -> Z.

(** [Racket.move] *)
Definition Racket_move (r : Racket) (x : number) (b : Board) : Racket :=
  let ms := Int (max_speed r) in
  let rx := Int (rect_x r) in
  let delta := num_sub x rx in
  let delta := if num_ltb ms delta then ms else delta in
  let delta := if num_ltb delta (Int (- max_speed r))
               then Int (- max_speed r) else delta in
  let delta := if num_ltb (num_add rx delta) (Int 0) then Int 0 else delta in
  let delta :=
    if num_ltb (Int (surface_width b))
         (num_add (num_add rx (Int (width r))) delta)
    then Int 0 else delta in
  let x' := match num_add rx delta with
            | Int z => z
            | Float f => rect_coerce f
            end in
  mkRacket x' (width r) (max_speed r).

(** [Player.move] *)
Definition move (p : FuzzyPlayer) (x : number) : FuzzyPlayer :=
  mkFuzzyPlayer (Racket_move (racket p) x (board p)) (board p) (prev_y_abs p).

Definition W (p : FuzzyPlayer) : float := of_int (surface_width (board p)).
Definition H (p : FuzzyPlayer) : float := of_int (surface_height (board p)).
Definition VMAX (p : FuzzyPlayer) : float := of_int (max_speed (racket p)).
Definition PW (p : FuzzyPlayer) : float := of_int (width (racket p)).

Definition x_universe (p : FuzzyPlayer) : list float :=
  linspace (- W p / 2) (W p / 2) (Z.to_nat (surface_width (board p)) + 1).

Definition y_universe (p : FuzzyPlayer) : list float :=
  linspace 0 (H p) (Z.to_nat (surface_height (board p)) + 1).

Definition span (p : FuzzyPlayer) : float := W p / 2.0.

Definition x_mf (p : FuzzyPlayer) (n : X.label) : list float :=
  let span := span p in
  match n with
  | X.far_right =>
      trapmf (x_universe p) (- span) (- span) (-0.22 * span) (-0.14 * span)
  | X.right =>
      trimf (x_universe p) (-0.18 * span) (-0.09 * span) (-0.035 * span)
  | X.center =>
      trimf (x_universe p) (-0.05 * span) 0.0 (0.05 * span)
  | X.left =>
      trimf (x_universe p) (0.035 * span) (0.09 * span) (0.18 * span)
  | X.far_left =>
      trapmf (x_universe p) (0.14 * span) (0.22 * span) span span
  end.

Definition y_mf (p : FuzzyPlayer) (n : Y.label) : list float :=
  match n with
  | Y.near => trapmf (y_universe p) 0 0 (0.30 * H p) (0.55 * H p)
  | Y.mid => trimf (y_universe p) (0.48 * H p) (0.68 * H p) (0.85 * H p)
  | Y.far => trapmf (y_universe p) (0.78 * H p) (0.92 * H p) (H p) (H p)
  end.

Definition velocity_fx (p : FuzzyPlayer) (n : V.label) (xd yd : float)
    : float :=
  let V := VMAX p in
  match n with
  | V.fast_left => -1.00 * V
  | V.mid_left => -0.90 * V
  | V.drift_left => -0.70 * V
  | V.stop => 0.0
  | V.drift_right => 0.70 * V
  | V.mid_right => 0.90 * V
  | V.fast_right => 1.00 * V
  end.

Definition dead_x : float := 1.2.
Definition cutoff_v : float := 0.10.
Definition boost_gain : float := 1.10.

Definition mf_x_map (p : FuzzyPlayer) (x_val : float) (n : X.label) : float :=
  interp_membership zero_outside_x (x_universe p) (x_mf p n) x_val.

Definition mf_y_map (p : FuzzyPlayer) (y_abs : float) (n : Y.label) : float :=
  interp_membership zero_outside_x (y_universe p) (y_mf p n) y_abs.

Definition edge_shift (p : FuzzyPlayer) (y_abs x_val : float) : float :=
  let y := mf_y_map p y_abs in
  let w := 0.9 * y Y.near + 0.4 * y Y.mid + 0.05 * y Y.far in
  let base := 0.25 * PW p in
  let shift := w * base in
  copysign shift x_val.

Definition tsk_rules (p : FuzzyPlayer) (x_edge y_abs : float)
    : list (float * V.label) :=
  let x := mf_x_map p x_edge in
  let y := mf_y_map p y_abs in
  [ (x X.far_left, V.fast_left);
    (x X.far_right, V.fast_right);
    (min (x X.left) (y Y.near), V.fast_left);
    (min (x X.right) (y Y.near), V.fast_right);
    (min (x X.left) (y Y.mid), V.mid_left);
    (min (x X.right) (y Y.mid), V.mid_right);
    (min (x X.left) (y Y.far), V.drift_left);
    (min (x X.right) (y Y.far), V.drift_right);
    (x X.center, V.stop) ].

Definition tsk_step (p : FuzzyPlayer) (x_edge y_abs : float)
    (acc : float * float) (rule : float * V.label) : float * float :=
  let '(num, den) := acc in
  let '(w_act, fx) := rule in
  if w_act <=? 0.0 then (num, den)
  else
    let z := velocity_fx p fx x_edge y_abs in
    (num + w_act * z, den + w_act).

(** The accumulation loop of [_tsk_velocity] and its quotient: the value
    of [v] before the cutoff. *)
Definition tsk_sums (p : FuzzyPlayer) (x_edge y_abs : float) : float * float :=
  fold_left (tsk_step p x_edge y_abs) (tsk_rules p x_edge y_abs) (0.0, 0.0).

Definition tsk_velocity (p : FuzzyPlayer) (x_val y_abs : float) : float :=
  let x_edge := x_val - edge_shift p y_abs x_val in
  let '(num, den) := tsk_sums p x_edge y_abs in
  let v := if den <=? 1e-9 then 0.0 else num / den in
  if abs v <? cutoff_v then 0.0 else v.

(** [act] on a float [x_diff] and [y_diff] (the game passes integers, which
    [float] converts first). *)
Definition act (p : FuzzyPlayer) (x_diff y_diff : float)
    : FuzzyPlayer * Action :=
  let x_val := x_diff in
  let y_abs := abs y_diff in
  let v := if abs x_val <? dead_x then 0.0 else tsk_velocity p x_val y_abs in
  let v :=
    match prev_y_abs p with
    | Some prev =>
        if negb (v =? 0.0) && (dead_x <=? abs x_val) then
          if y_abs <? prev - 0.001 then
            let v := v * boost_gain in
            max (- VMAX p) (min (VMAX p) v)
          else v
        else v
    | None => v
    end in
  let p := mkFuzzyPlayer (racket p) (board p) (Some y_abs) in
  let target := of_int (rect_x (racket p)) + v in
  (move p (Float target), mkAction v target).

End Controller.

(** Truncation towards zero of a finite double, one possible
    [rect_coerce]. *)
Definition rect_trunc (f : float) : Z :=
  match Prim2SF f with
  | S754_finite s m e =>
      let n := Z.quot (Z.pos m * 2 ^ Z.max e 0) (2 ^ Z.max (- e) 0) in
      if s then (- n)%Z else n
  | _ => 0%Z
  end.

(** The player of the program's own configuration, with a remembered
    distance or none. *)
Definition main_player (prev : option float) : FuzzyPlayer :=
  mkFuzzyPlayer main_racket main_board prev.

End B64.

(** * Properties *)

(** ** Comparisons *)

Lemma ltb_spec (x y : Q) : reflect (x < y) (Py.ltb x y).
Proof.
  unfold Py.ltb. destruct (Qlt_le_dec x y) as [Hlt | Hle].
  - destruct (Qle_bool y x) eqn:E; simpl; constructor; auto.
    apply Qle_bool_iff in E. lra.
  - pose proof Hle as Hb. apply Qle_bool_iff in Hb. rewrite Hb. simpl.
    constructor. lra.
Qed.

Lemma leb_spec (x y : Q) : reflect (x <= y) (Py.leb x y).
Proof.
  unfold Py.leb. destruct (Qle_bool x y) eqn:E; constructor.
  - now apply Qle_bool_iff.
  - intro Hle. apply Qle_bool_iff in Hle. congruence.
Qed.

Lemma eqb_spec (x y : Q) : reflect (x == y) (Py.eqb x y).
Proof.
  unfold Py.eqb. destruct (Qeq_bool x y) eqn:E; constructor.
  - now apply Qeq_bool_iff.
  - intro Heq. apply Qeq_bool_iff in Heq. congruence.
Qed.

Lemma ltb_compat (a a' b b' : Q) : a == a' -> b == b' -> Py.ltb a b = Py.ltb a' b'.
Proof.
  intros Ha Hb. destruct (ltb_spec a b), (ltb_spec a' b'); auto; exfalso; lra.
Qed.


Lemma eqb_compat (a a' b b' : Q) : a == a' -> b == b' -> Py.eqb a b = Py.eqb a' b'.
Proof.
  intros Ha Hb. destruct (eqb_spec a b), (eqb_spec a' b'); auto; exfalso; lra.
Qed.

Ltac py_case :=
  match goal with
  | |- context [Py.ltb ?a ?b] => destruct (ltb_spec a b)
  | |- context [Py.leb ?a ?b] => destruct (leb_spec a b)
  | |- context [Py.eqb ?a ?b] => destruct (eqb_spec a b)
  end.

Ltac py_cases := repeat (py_case; simpl).

Ltac py_prune :=
  repeat (py_case; simpl; try (exfalso; lra)).

Ltac qabs x :=
  let H := fresh "Hsign" in
  destruct (Qlt_le_dec x 0) as [H | H];
  [ rewrite (Qabs_neg x) in * by lra | rewrite (Qabs_pos x) in * by lra ].

Lemma float_eq (x : Q) : Py.float x == x.
Proof. apply Qred_correct. Qed.

Lemma abs_float_eq (x : Q) : Qabs (Py.float x) == Qabs x.
Proof. now rewrite float_eq. Qed.

Lemma py_min_Qmin (a b : Q) : Py.min a b == Qmin a b.
Proof.
  unfold Py.min. destruct (ltb_spec b a).
  - rewrite Q.min_r; [reflexivity | lra].
  - rewrite Q.min_l; [reflexivity | lra].
Qed.

Lemma copysign_cases (m s : Q) :
  0 <= m ->
  (s < 0 -> Py.copysign m s == - m) /\ (0 <= s -> Py.copysign m s == m).
Proof.
  intros Hm. unfold Py.copysign.
  pose proof (Qabs_pos m Hm) as Ha.
  destruct (ltb_spec s 0); split; intros; try (exfalso; lra); rewrite Ha; reflexivity.
Qed.

Lemma clamp_spec (vmax v : Q) :
  0 <= vmax ->
  - vmax <= clamp vmax v <= vmax /\
  (- vmax <= v <= vmax -> clamp vmax v == v) /\
  (vmax <= v -> clamp vmax v == vmax) /\
  (v <= - vmax -> clamp vmax v == - vmax).
Proof.
  intros HV. unfold clamp, Py.max, Py.min.
  destruct (ltb_spec v vmax); destruct (ltb_spec (- vmax) v);
    try destruct (ltb_spec (- vmax) vmax);
    repeat split; intros; lra.
Qed.


Lemma half_eq (w : Q) : w / 2 == w * (1 # 2).
Proof. field. Qed.

(** ** The triangular and trapezoidal shapes *)

Lemma Qdiv_unit (n d : Q) : 0 < n -> n < d -> 0 < n / d /\ n / d < 1.
Proof.
  intros Hn Hd. split.
  - apply Qlt_shift_div_l; lra.
  - apply Qlt_shift_div_r; lra.
Qed.

Lemma trimf1_range (a b c x : Q) : 0 <= Fuzz.trimf1 a b c x <= 1.
Proof.
  unfold Fuzz.trimf1. py_cases; try lra.
  all: try (destruct (Qdiv_unit (c - x) (c - b)); lra).
  all: try (destruct (Qdiv_unit (x - a) (b - a)); lra).

Qed.

Lemma trimf1_support (a b c x : Q) :
  a <= b -> b <= c -> ~ Fuzz.trimf1 a b c x == 0 -> a <= x <= c.
Proof.
  unfold Fuzz.trimf1. intros Hab Hbc. py_cases; intros Hnz; try lra.
  all: exfalso; apply Hnz; reflexivity.
Qed.

Lemma trapmf1_range (a b c d x : Q) : 0 <= Fuzz.trapmf1 a b c d x <= 1.
Proof.
  unfold Fuzz.trapmf1.
  pose proof (trimf1_range a b b x). pose proof (trimf1_range c c d x).
  py_cases; lra.
Qed.

Lemma trapmf1_support (a b c d x : Q) :
  ~ Fuzz.trapmf1 a b c d x == 0 -> a <= x <= d.
Proof.
  unfold Fuzz.trapmf1. py_cases; intros Hnz; try lra.
  all: exfalso; apply Hnz; reflexivity.
Qed.

Lemma trimf1_pos (a b c u : Q) : a < u < c -> 0 < Fuzz.trimf1 a b c u.
Proof.
  intros [Hau Huc]. unfold Fuzz.trimf1. py_cases; try lra.
  all: try (destruct (Qdiv_unit (c - u) (c - b)); lra).
  all: try (destruct (Qdiv_unit (u - a) (b - a)); lra).
Qed.

Lemma trapmf1_pos_low (a c d u : Q) :
  a <= c -> a <= u < d -> 0 < Fuzz.trapmf1 a a c d u.
Proof.
  intros Hac [Hau Hud]. unfold Fuzz.trapmf1, Fuzz.trimf1. py_cases; try lra.
  all: try (destruct (Qdiv_unit (d - u) (d - c)); lra).

Qed.

Lemma trapmf1_pos_high (a b d u : Q) :
  b <= d -> a < u <= d -> 0 < Fuzz.trapmf1 a b d d u.
Proof.
  intros Hbd [Hau Hud]. unfold Fuzz.trapmf1, Fuzz.trimf1. py_cases; try lra.
  all: try (destruct (Qdiv_unit (u - a) (b - a)); lra).

Qed.

Lemma trimf1_mirror (a b c a' b' c' u u' : Q) :
  a' == - c -> b' == - b -> c' == - a -> u' == - u ->
  Fuzz.trimf1 a' b' c' u' == Fuzz.trimf1 a b c u.
Proof.
  intros Ha Hb Hc Hu. unfold Fuzz.trimf1. py_prune; try reflexivity.
  all: try (rewrite Ha, Hb, Hc, Hu; field; lra).
  all: try (rewrite Ha, Hb, Hu; field; lra).
  all: try (rewrite Hb, Hc, Hu; field; lra).

Qed.

Lemma trapmf1_mirror (a b c d a' b' c' d' u u' : Q) :
  b <= c ->
  a' == - d -> b' == - c -> c' == - b -> d' == - a -> u' == - u ->
  Fuzz.trapmf1 a' b' c' d' u' == Fuzz.trapmf1 a b c d u.
Proof.
  intros Hle Ha Hb Hc Hd Hu. unfold Fuzz.trapmf1.
  assert (E1 : Fuzz.trimf1 a' b' b' u' == Fuzz.trimf1 c c d u)
    by (apply trimf1_mirror; assumption).
  assert (E2 : Fuzz.trimf1 c' c' d' u' == Fuzz.trimf1 a b b u)
    by (apply trimf1_mirror; assumption).
  assert (P1 : b == c -> u == b -> Fuzz.trimf1 a b b u == Fuzz.trimf1 c c d u).
  { intros Hbc Hub. unfold Fuzz.trimf1. py_prune; reflexivity. }
  py_prune; try reflexivity; try assumption.
  all: try (symmetry; assumption).
  all: try (rewrite E1; symmetry; apply P1; lra).
  all: try (rewrite E2; apply P1; lra).

Qed.

(** ** Linear interpolation *)

Lemma lerp_weights (x0 f0 x1 f1 x : Q) :
  x0 < x1 ->
  Fuzz.lerp x0 f0 x1 f1 x ==
  (1 - (x - x0) / (x1 - x0)) * f0 + (x - x0) / (x1 - x0) * f1.
Proof. intros Hlt. unfold Fuzz.lerp. field. lra. Qed.

Lemma ratio_unit (x0 x1 x : Q) :
  x0 < x1 -> x0 <= x <= x1 -> 0 <= (x - x0) / (x1 - x0) <= 1.
Proof.
  intros Hlt [Hlo Hhi]. split.
  - apply Qle_shift_div_l; lra.
  - apply Qle_shift_div_r; lra.
Qed.

Lemma convex_bounds (t a b lo hi : Q) :
  0 <= t <= 1 -> lo <= a <= hi -> lo <= b <= hi ->
  lo <= (1 - t) * a + t * b <= hi.
Proof.
  intros [Ht0 Ht1] [Ha0 Ha1] [Hb0 Hb1]. split.
  - assert (0 <= (1 - t) * (a - lo)) by (apply Qmult_le_0_compat; lra).
    assert (0 <= t * (b - lo)) by (apply Qmult_le_0_compat; lra).
    lra.
  - assert (0 <= (1 - t) * (hi - a)) by (apply Qmult_le_0_compat; lra).
    assert (0 <= t * (hi - b)) by (apply Qmult_le_0_compat; lra).
    lra.
Qed.

Lemma lerp_bounds (x0 f0 x1 f1 x lo hi : Q) :
  x0 < x1 -> x0 <= x <= x1 -> lo <= f0 <= hi -> lo <= f1 <= hi ->
  lo <= Fuzz.lerp x0 f0 x1 f1 x <= hi.
Proof.
  intros Hlt Hx H0 H1. rewrite (lerp_weights _ _ _ _ _ Hlt).
  apply convex_bounds; auto using ratio_unit.
Qed.

Lemma lerp_right_end (x0 f0 x1 f1 x : Q) :
  x0 < x1 -> x == x1 -> Fuzz.lerp x0 f0 x1 f1 x == f1.
Proof. intros Hlt E. unfold Fuzz.lerp. rewrite E. field. lra. Qed.

Lemma lerp_left_end (x0 f0 x1 f1 x : Q) :
  x0 < x1 -> x == x0 -> Fuzz.lerp x0 f0 x1 f1 x == f0.
Proof. intros Hlt E. unfold Fuzz.lerp. rewrite E. field. lra. Qed.

Lemma lerp_pos (x0 f0 x1 f1 x : Q) :
  x0 < x1 -> x0 <= x <= x1 -> 0 < f0 -> 0 < f1 ->
  0 < Fuzz.lerp x0 f0 x1 f1 x.
Proof.
  intros Hlt Hx H0 H1. destruct (Qlt_le_dec f0 f1).
  - assert (f0 <= Fuzz.lerp x0 f0 x1 f1 x <= f1)
      by (apply lerp_bounds; auto; lra). lra.
  - assert (f1 <= Fuzz.lerp x0 f0 x1 f1 x <= f0)
      by (apply lerp_bounds; auto; lra). lra.
Qed.

Lemma lerp_add (x0 x1 x f0 f1 g0 g1 : Q) :
  x0 < x1 ->
  Fuzz.lerp x0 f0 x1 f1 x + Fuzz.lerp x0 g0 x1 g1 x ==
  Fuzz.lerp x0 (f0 + g0) x1 (f1 + g1) x.
Proof. intros Hlt. unfold Fuzz.lerp. field. lra. Qed.

Lemma lerp_mirror (x0 x1 x x0' x1' x' f0 f1 f0' f1' : Q) :
  x0 < x1 -> x0' == - x1 -> x1' == - x0 -> x' == - x ->
  f0' == f1 -> f1' == f0 ->
  Fuzz.lerp x0' f0' x1' f1' x' == Fuzz.lerp x0 f0 x1 f1 x.
Proof.
  intros Hlt E0 E1 Ex F0 F1. unfold Fuzz.lerp.
  rewrite E0, E1, Ex, F0, F1. field. lra.
Qed.

Lemma last_cons_nonempty (x1 : Q) (xp : list Q) (d d' : Q) :
  last (x1 :: xp) d = last (x1 :: xp) d'.
Proof.
  revert x1. induction xp as [ | x2 xp IH]; intros x1; [reflexivity | ].
  change (last (x2 :: xp) d = last (x2 :: xp) d'). apply IH.
Qed.

Lemma interp_scan_seg (x : Q) : forall (xp : list Q) (x0 : Q),
  ascending x0 xp -> xp <> [] -> x0 <= x -> x <= last xp x0 ->
  exists i, on_seg (x0 :: xp) x i /\
    forall f0 fp, length fp = length xp ->
      Fuzz.interp_scan x x0 f0 xp fp == seg_val (x0 :: xp) (f0 :: fp) i x.
Proof.
  induction xp as [ | x1 xp' IH]; intros x0 Hasc Hne Hlo Hhi; [congruence | ].
  destruct Hasc as [H01 Hasc]. destruct (Qlt_le_dec x x1) as [Hlt | Hge].
  - exists 0%nat. split.
    + split; simpl; [lia | lra].
    + intros f0 [ | f1 fp'] Hlen; [discriminate | ]. simpl.
      destruct (ltb_spec x x1); [reflexivity | lra].
  - destruct xp' as [ | x2 xp''].
    + simpl in Hhi. exists 0%nat. split.
      * split; simpl; [lia | lra].
      * intros f0 [ | f1 [ | f2 fp']] Hlen; try discriminate. simpl.
        destruct (ltb_spec x x1); [lra | ].
        unfold seg_val; simpl. symmetry. apply lerp_right_end; lra.
    + destruct (IH x1 Hasc) as [i [[Hi Hx] Hval]]; [congruence | lra | | ].
      * rewrite (last_cons_nonempty x2 xp'' x1 x0). exact Hhi.
      * exists (S i). split.
        -- split; [simpl in *; lia | exact Hx].
        -- intros f0 [ | f1 fp'] Hlen; [discriminate | ].
           simpl in Hlen. injection Hlen as Hlen.
           change (Fuzz.interp_scan x x0 f0 (x1 :: x2 :: xp'') (f1 :: fp'))
             with (if Py.ltb x x1 then Fuzz.lerp x0 f0 x1 f1 x
                   else Fuzz.interp_scan x x1 f1 (x2 :: xp'') fp').
           destruct (ltb_spec x x1); [lra | ].
           rewrite (Hval f1 fp' Hlen). reflexivity.
Qed.

Lemma np_interp_inside (x x0 : Q) (xp : list Q) :
  ascending x0 xp -> xp <> [] -> x0 <= x <= last xp x0 ->
  exists i, on_seg (x0 :: xp) x i /\
    forall fp l r, length fp = S (length xp) ->
      Fuzz.np_interp x (x0 :: xp) fp l r == seg_val (x0 :: xp) fp i x.
Proof.
  intros Hasc Hne [Hlo Hhi].
  destruct (interp_scan_seg x xp x0 Hasc Hne Hlo Hhi) as [i [Hseg Hval]].
  exists i. split; [exact Hseg | ].
  intros [ | f0 fp] l r Hlen; [discriminate | ].
  simpl in Hlen. injection Hlen as Hlen. unfold Fuzz.np_interp.
  destruct (ltb_spec x x0); [lra | ].
  destruct xp as [ | x1 xp']; [congruence | ].
  change (last (x0 :: x1 :: xp') x0) with (last (x1 :: xp') x0).
  destruct (ltb_spec (last (x1 :: xp') x0) x); [lra | ].
  apply Hval. exact Hlen.
Qed.

(** ** Evenly spaced sample points *)

Section Grid.

Variables (start step : Q).

Local Abbreviation gp := (grid_point start step).

Lemma grid_point_step (k : nat) : gp (S k) == gp k + step.
Proof.
  unfold grid_point. rewrite Nat2Z.inj_succ. unfold Z.succ.
  rewrite inject_Z_plus. ring.
Qed.

Lemma grid_nth (m k i : nat) :
  (i < m)%nat -> nth i (map gp (seq k m)) 0 = gp (k + i).
Proof.
  intros Hi.
  rewrite (nth_indep _ 0 (gp 0)) by (rewrite length_map, length_seq; exact Hi).
  rewrite map_nth. rewrite seq_nth by exact Hi. reflexivity.
Qed.

Lemma grid_ascending : 0 < step -> forall (m k : nat),
  ascending (gp k) (map gp (seq (S k) m)).
Proof.
  intros Hstep. induction m as [ | m IH]; intros k; simpl; [exact I | ].
  split; [ | apply IH]. rewrite grid_point_step. lra.
Qed.

Lemma grid_last (d : Q) : forall (m k : nat),
  last (map gp (seq k (S m))) d = gp (k + m).
Proof.
  induction m as [ | m IH]; intros k.
  - simpl. now rewrite Nat.add_0_r.
  - change (last (map gp (seq (S k) (S m))) d = gp (k + S m)).
    rewrite IH. f_equal. lia.
Qed.

Lemma grid_point_mono (i j : nat) :
  0 < step -> (i <= j)%nat -> gp i <= gp j.
Proof.
  intros Hstep Hij. unfold grid_point.
  assert (Hz : inject_Z (Z.of_nat i) <= inject_Z (Z.of_nat j))
    by (rewrite <- Zle_Qle; lia).
  assert (Hm := Qmult_le_compat_r _ _ step Hz). lra.
Qed.

End Grid.

Lemma inject_nat_pos (m : nat) : 0 < inject_Z (Z.of_nat (S m)).
Proof. change 0 with (inject_Z 0). rewrite <- Zlt_Qlt. lia. Qed.

Lemma linspace_shape (a b : Q) (m : nat) :
  a < b ->
  let step := (b - a) / inject_Z (Z.of_nat (S m)) in
  Fuzz.linspace a b (S (S m)) =
    grid_point a step 0 :: map (grid_point a step) (seq 1 (S m)) /\
  0 < step /\
  grid_point a step 0 == a /\
  grid_point a step (S m) == b.
Proof.
  intros Hab step. pose proof (inject_nat_pos m) as Hm.
  split; [ | split; [ | split]].
  - unfold Fuzz.linspace. replace (S (S m) - 1)%nat with (S m) by lia. reflexivity.
  - apply Qlt_shift_div_l; lra.
  - unfold grid_point. simpl. ring.
  - unfold grid_point, step. field. lra.
Qed.

Lemma last_map_cons (f : Q -> Q) : forall (l : list Q) (x d : Q),
  last (map f (x :: l)) d = f (last (x :: l) x).
Proof.
  induction l as [ | y l IH]; intros x d; [reflexivity | ].
  change (last (map f (y :: l)) d = f (last (y :: l) x)).
  rewrite (IH y d). f_equal. apply last_cons_nonempty.
Qed.

Section GridFacts.

Variables (a b : Q) (m : nat).
Hypothesis Hab : a < b.

Local Abbreviation step := ((b - a) / inject_Z (Z.of_nat (S m))).
Local Abbreviation g := (grid_point a step).

Lemma grid_step_pos : 0 < step.
Proof. apply Qlt_shift_div_l; [apply inject_nat_pos | lra]. Qed.

Lemma grid_point_lt (i j : nat) : (i < j)%nat -> g i < g j.
Proof.
  intros Hij. pose proof grid_step_pos as Hs.
  apply Qlt_le_trans with (g (S i)).
  - rewrite grid_point_step. lra.
  - apply grid_point_mono; [exact Hs | lia].
Qed.

Lemma grid_mirror (k : nat) :
  a == - b -> (k <= S m)%nat -> g (S m - k) == - g k.
Proof.
  intros Hsym Hk. unfold grid_point.
  rewrite Nat2Z.inj_sub by exact Hk. unfold Zminus.
  rewrite inject_Z_plus, inject_Z_opp.
  pose proof (inject_nat_pos m) as Hm.
  rewrite Hsym. field. lra.
Qed.

Lemma grid_seg_unique (f : Q -> Q) (i j : nat) (x : Q) :
  g i <= x <= g (S i) -> g j <= x <= g (S j) ->
  Fuzz.lerp (g i) (f (g i)) (g (S i)) (f (g (S i))) x ==
  Fuzz.lerp (g j) (f (g j)) (g (S j)) (f (g (S j))) x.
Proof.
  assert (Hadj : forall i j, (i < j)%nat ->
            g i <= x <= g (S i) -> g j <= x <= g (S j) ->
            Fuzz.lerp (g i) (f (g i)) (g (S i)) (f (g (S i))) x ==
            Fuzz.lerp (g j) (f (g j)) (g (S j)) (f (g (S j))) x).
  { clear i j. intros i j Hij Hi Hj.
    assert (j = S i).
    { destruct (Nat.eq_dec j (S i)) as [E | N]; [exact E | ].
      assert (Hlt : g (S i) < g j) by (apply grid_point_lt; lia). lra. }
    subst j.
    pose proof (grid_point_lt i (S i) ltac:(lia)).
    pose proof (grid_point_lt (S i) (S (S i)) ltac:(lia)).
    rewrite lerp_right_end by lra. rewrite lerp_left_end by lra.
    reflexivity. }
  intros Hi Hj. destruct (Nat.lt_trichotomy i j) as [Hlt | [Heq | Hgt]].
  - now apply Hadj.
  - subst j. reflexivity.
  - symmetry. now apply Hadj.
Qed.

(** Where [x] falls relative to the sampled range, and what every sampled
    function returns there. *)
Lemma sampled_cases (zo : bool) (x : Q) :
  (x < a /\ forall f, sampled zo a b m f x = if zo then 0 else f (g 0)) \/
  (b < x /\ forall f, sampled zo a b m f x = if zo then 0 else f (g (S m))) \/
  (a <= x <= b /\ exists i, (i <= m)%nat /\ g i < g (S i) /\
     a <= g i /\ g (S i) <= b /\ g i <= x <= g (S i) /\
     forall f, sampled zo a b m f x ==
               Fuzz.lerp (g i) (f (g i)) (g (S i)) (f (g (S i))) x).
Proof.
  pose proof (linspace_shape a b m Hab) as HS. cbv zeta in HS.
  destruct HS as [HU [Hstep [Hg0 Hgm]]].
  assert (Hlast : forall d, last (map g (seq 1 (S m))) d = g (S m)).
  { intros d. rewrite grid_last. reflexivity. }
  assert (Hasc : ascending (g 0) (map g (seq 1 (S m)))).
  { apply grid_ascending. exact Hstep. }
  destruct (Qlt_le_dec x a) as [Hlo | Hlo]; [left | right].
  - split; [exact Hlo | ]. intros f. unfold sampled, Fuzz.interp_membership.
    rewrite HU. unfold Fuzz.np_interp.
    change (map f (g 0%nat :: map g (seq 1 (S m))))
      with (f (g 0%nat) :: map f (map g (seq 1 (S m)))).
    destruct (ltb_spec x (g 0%nat)); [ | lra]. now destruct zo.
  - destruct (Qlt_le_dec b x) as [Hhi | Hhi]; [left | right].
    + split; [exact Hhi | ]. intros f.
      unfold sampled, Fuzz.interp_membership. rewrite HU.
      unfold Fuzz.np_interp.
      change (map f (g 0%nat :: map g (seq 1 (S m))))
        with (f (g 0%nat) :: map f (map g (seq 1 (S m)))).
      destruct (ltb_spec x (g 0%nat)); [lra | ].
      change (last (g 0%nat :: map g (seq 1 (S m))) (g 0%nat))
        with (last (map g (seq 1 (S m))) (g 0%nat)).
      rewrite Hlast. destruct (ltb_spec (g (S m)) x); [ | lra].
      destruct zo; [reflexivity | ].
      change (f (g 0%nat) :: map f (map g (seq 1 (S m))))
        with (map f (g 0%nat :: map g (seq 1 (S m)))).
      rewrite last_map_cons.
      change (last (g 0%nat :: map g (seq 1 (S m))) (g 0%nat))
        with (last (map g (seq 1 (S m))) (g 0%nat)).
      now rewrite Hlast.
    + split; [lra | ].
      destruct (np_interp_inside x (g 0%nat) (map g (seq 1 (S m))) Hasc)
        as [i [[Hi Hx] Hval]].
      * discriminate.
      * rewrite Hlast. lra.
      * simpl in Hi. rewrite length_map, length_seq in Hi.
        assert (Hnth : forall k, (k <= S m)%nat ->
                  nth k (g 0%nat :: map g (seq 1 (S m))) 0 = g k).
        { intros [ | k] Hk; [reflexivity | ]. cbn [nth].
          rewrite grid_nth by lia. reflexivity. }
        assert (Hfnth : forall f k, (k <= S m)%nat ->
                  nth k (map f (g 0%nat :: map g (seq 1 (S m)))) 0 = f (g k)).
        { intros f k Hk.
          rewrite (nth_indep _ 0 (f 0)).
          - rewrite map_nth. now rewrite Hnth.
          - simpl. rewrite !length_map, length_seq. lia. }
        rewrite !Hnth in Hx by lia.
        exists i. split; [lia | ].
        split; [ | split; [ | split; [ | split; [exact Hx | ]]]].
        2:{ assert (g 0%nat <= g i)
              by (apply grid_point_mono; [exact Hstep | lia]). lra. }
        2:{ assert (g (S i) <= g (S m))
              by (apply grid_point_mono; [exact Hstep | lia]). lra. }
        -- apply grid_point_lt. lia.
        -- intros f. unfold sampled, Fuzz.interp_membership. rewrite HU.
           assert (Hlen : length (map f (g 0%nat :: map g (seq 1 (S m)))) =
                          S (length (map g (seq 1 (S m))))).
           { simpl. now rewrite !length_map. }
           assert (E : forall l r,
             Fuzz.np_interp x (g 0%nat :: map g (seq 1 (S m)))
               (map f (g 0%nat :: map g (seq 1 (S m)))) l r ==
             Fuzz.lerp (g i) (f (g i)) (g (S i)) (f (g (S i))) x).
           { intros l r. rewrite (Hval _ l r Hlen). unfold seg_val.
             rewrite !Hnth, !Hfnth by lia. reflexivity. }
           destruct zo; apply E.
Qed.

End GridFacts.

Lemma sampled_range (zo : bool) (a b : Q) (m : nat) (f : Q -> Q) (x : Q) :
  a < b -> (forall u, 0 <= f u <= 1) -> 0 <= sampled zo a b m f x <= 1.
Proof.
  intros Hab Hf.
  destruct (sampled_cases a b m Hab zo x)
    as [[_ E] | [[_ E] | [_ [i [_ [Hlt [_ [_ [Hx E]]]]]]]]].
  - rewrite E. destruct zo; [lra | apply Hf].
  - rewrite E. destruct zo; [lra | apply Hf].
  - rewrite E. apply lerp_bounds; auto.
Qed.

Lemma sampled_mirror (zo : bool) (a b : Q) (m : nat) (f f' : Q -> Q) (x x' : Q) :
  a < b -> a == - b -> x' == - x ->
  (forall u u', u' == - u -> f' u' == f u) ->
  sampled zo a b m f' x' == sampled zo a b m f x.
Proof.
  intros Hab Hsym Hx Hf.
  destruct (linspace_shape a b m Hab) as [_ [Hstep [Hg0 Hgm]]].
  destruct (sampled_cases a b m Hab zo x)
    as [[Hlo E] | [[Hhi E] | [Hin [i [Hi [Hlt [_ [_ [Hseg E]]]]]]]]];
  destruct (sampled_cases a b m Hab zo x')
    as [[Hlo' E'] | [[Hhi' E'] | [Hin' [j [Hj [Hlt' [_ [_ [Hseg' E']]]]]]]]];
  try (exfalso; lra).
  - rewrite E, E'. destruct zo; [reflexivity | ]. apply Hf. lra.
  - rewrite E, E'. destruct zo; [reflexivity | ]. apply Hf. lra.
  - rewrite E, E'.
    set (g := grid_point a ((b - a) / inject_Z (Z.of_nat (S m)))) in *.
    assert (M1 : g (m - j)%nat == - g (S j)).
    { replace (m - j)%nat with (S m - S j)%nat by lia.
      apply grid_mirror; [exact Hsym | lia]. }
    assert (M2 : g (S (m - j)) == - g j).
    { replace (S (m - j))%nat with (S m - j)%nat by lia.
      apply grid_mirror; [exact Hsym | lia]. }
    assert (Hlt2 : g (m - j)%nat < g (S (m - j)))
      by (apply (grid_point_lt a b m Hab); lia).
    pose proof (grid_seg_unique a b m Hab f (m - j) i x) as Huniq.
    fold g in Huniq. clearbody g.
    rewrite (lerp_mirror (g (m - j)%nat) (g (S (m - j))) x _ _ _
               (f (g (m - j)%nat)) (f (g (S (m - j))))).
    + apply Huniq; [lra | exact Hseg].
    + exact Hlt2.
    + lra.
    + lra.
    + exact Hx.
    + apply Hf. lra.
    + apply Hf. lra.
Qed.

(** ** Membership degrees of a player *)

Lemma W_pos (p : FuzzyPlayer) : (0 < surface_width (board p))%Z -> 0 < W p.
Proof. intros Hw. unfold W. change 0 with (inject_Z 0). now rewrite <- Zlt_Qlt. Qed.

Lemma H_pos (p : FuzzyPlayer) : (0 < surface_height (board p))%Z -> 0 < H p.
Proof. intros Hh. unfold H. change 0 with (inject_Z 0). now rewrite <- Zlt_Qlt. Qed.

Lemma span_pos (p : FuzzyPlayer) : 0 < W p -> 0 < span p.
Proof. intros Hw. unfold span. rewrite half_eq. lra. Qed.

Lemma PW_nonneg (p : FuzzyPlayer) : (0 <= width (racket p))%Z -> 0 <= PW p.
Proof. intros Hw. unfold PW. change 0 with (inject_Z 0). now rewrite <- Zle_Qle. Qed.

Lemma VMAX_nonneg (p : FuzzyPlayer) : (0 <= max_speed (racket p))%Z -> 0 <= VMAX p.
Proof. intros Hw. unfold VMAX. change 0 with (inject_Z 0). now rewrite <- Zle_Qle. Qed.

Lemma x_mf_shape (p : FuzzyPlayer) (n : X.label) :
  x_mf p n = map (x_shape p n) (x_universe p).
Proof. destruct n; reflexivity. Qed.

Lemma y_mf_shape (p : FuzzyPlayer) (n : Y.label) :
  y_mf p n = map (y_shape p n) (y_universe p).
Proof. destruct n; reflexivity. Qed.

Lemma mf_x_map_sampled (zo : bool) (p : FuzzyPlayer) (x : Q) (n : X.label) :
  (0 < surface_width (board p))%Z ->
  mf_x_map zo p x n = sampled zo (- W p / 2) (W p / 2) (x_cells p) (x_shape p n) x.
Proof.
  intros Hw. unfold mf_x_map, sampled. rewrite x_mf_shape.
  unfold x_universe, x_cells.
  replace (Z.to_nat (surface_width (board p)) + 1)%nat
    with (S (S (Z.to_nat (surface_width (board p)) - 1))) by lia.
  reflexivity.
Qed.

Lemma mf_y_map_sampled (zo : bool) (p : FuzzyPlayer) (y : Q) (n : Y.label) :
  (0 < surface_height (board p))%Z ->
  mf_y_map zo p y n = sampled zo 0 (H p) (y_cells p) (y_shape p n) y.
Proof.
  intros Hh. unfold mf_y_map, sampled. rewrite y_mf_shape.
  unfold y_universe, y_cells.
  replace (Z.to_nat (surface_height (board p)) + 1)%nat
    with (S (S (Z.to_nat (surface_height (board p)) - 1))) by lia.
  reflexivity.
Qed.

Lemma x_shape_range (p : FuzzyPlayer) (n : X.label) (u : Q) :
  0 <= x_shape p n u <= 1.
Proof. destruct n; simpl; auto using trimf1_range, trapmf1_range. Qed.

Lemma y_shape_range (p : FuzzyPlayer) (n : Y.label) (u : Q) :
  0 <= y_shape p n u <= 1.
Proof. destruct n; simpl; auto using trimf1_range, trapmf1_range. Qed.

Lemma mf_x_map_range (zo : bool) (p : FuzzyPlayer) (x : Q) (n : X.label) :
  (0 < surface_width (board p))%Z -> 0 <= mf_x_map zo p x n <= 1.
Proof.
  intros Hw. rewrite mf_x_map_sampled by exact Hw.
  apply sampled_range; [ | apply x_shape_range].
  pose proof (W_pos p Hw). rewrite !half_eq. lra.
Qed.

Lemma mf_y_map_range (zo : bool) (p : FuzzyPlayer) (y : Q) (n : Y.label) :
  (0 < surface_height (board p))%Z -> 0 <= mf_y_map zo p y n <= 1.
Proof.
  intros Hh. rewrite mf_y_map_sampled by exact Hh.
  apply sampled_range; [ | apply y_shape_range].
  pose proof (H_pos p Hh). lra.
Qed.

Lemma x_shape_sum_range (p : FuzzyPlayer) (u : Q) :
  0 < W p -> 0 <= x_shape_sum p u <= 2.
Proof.
  intros Hw.
  pose proof (x_shape_range p X.far_left u) as Rfl.
  pose proof (x_shape_range p X.left u) as Rl.
  pose proof (x_shape_range p X.center u) as Rc.
  pose proof (x_shape_range p X.right u) as Rr.
  pose proof (x_shape_range p X.far_right u) as Rfr.
  unfold x_shape_sum. split; [lra | ].
  assert (Hs : 0 < span p) by (apply span_pos; exact Hw).
  revert Rfl Rl Rc Rr Rfr. simpl. generalize (span p) Hs. intros s Hs'.
  intros Rfl Rl Rc Rr Rfr.
  assert (Sfl := trapmf1_support (0.14 * s) (0.22 * s) s s u).
  assert (Sfr := trapmf1_support (- s) (- s) (- 0.22 * s) (- 0.14 * s) u).
  assert (Sl := trimf1_support (0.035 * s) (0.09 * s) (0.18 * s) u).
  assert (Sr := trimf1_support (- 0.18 * s) (- 0.09 * s) (- 0.035 * s) u).
  assert (Sc := trimf1_support (- 0.05 * s) 0 (0.05 * s) u).
  destruct (Qeq_dec (Fuzz.trapmf1 (0.14 * s) (0.22 * s) s s u) 0) as [Zfl | Nfl];
  destruct (Qeq_dec (Fuzz.trapmf1 (- s) (- s) (- 0.22 * s) (- 0.14 * s) u) 0) as [Zfr | Nfr];
  destruct (Qeq_dec (Fuzz.trimf1 (0.035 * s) (0.09 * s) (0.18 * s) u) 0) as [Zl | Nl];
  destruct (Qeq_dec (Fuzz.trimf1 (- 0.18 * s) (- 0.09 * s) (- 0.035 * s) u) 0) as [Zr | Nr];
  destruct (Qeq_dec (Fuzz.trimf1 (- 0.05 * s) 0 (0.05 * s) u) 0) as [Zc | Nc];
  try lra.
  all: try (specialize (Sfl Nfl)); try (specialize (Sfr Nfr));
       try (specialize (Sl ltac:(lra) ltac:(lra) Nl));
       try (specialize (Sr ltac:(lra) ltac:(lra) Nr));
       try (specialize (Sc ltac:(lra) ltac:(lra) Nc)); lra.
Qed.

Lemma x_shape_sum_pos (p : FuzzyPlayer) (u : Q) :
  0 < W p -> - span p <= u <= span p -> 0 < x_shape_sum p u.
Proof.
  intros Hw Hu.
  pose proof (x_shape_range p X.far_left u) as Rfl.
  pose proof (x_shape_range p X.left u) as Rl.
  pose proof (x_shape_range p X.center u) as Rc.
  pose proof (x_shape_range p X.right u) as Rr.
  pose proof (x_shape_range p X.far_right u) as Rfr.
  unfold x_shape_sum. pose proof (span_pos p Hw) as Hs.
  revert Rfl Rl Rc Rr Rfr. simpl. revert Hu. generalize (span p) Hs.
  intros s Hs' Hu Rfl Rl Rc Rr Rfr.
  destruct (Qlt_le_dec u (- 0.14 * s)) as [C1 | C1].
  { assert (0 < Fuzz.trapmf1 (- s) (- s) (- 0.22 * s) (- 0.14 * s) u)
      by (apply trapmf1_pos_low; lra). lra. }
  destruct (Qlt_le_dec u (- 0.035 * s)) as [C2 | C2].
  { assert (0 < Fuzz.trimf1 (- 0.18 * s) (- 0.09 * s) (- 0.035 * s) u)
      by (apply trimf1_pos; lra). lra. }
  destruct (Qlt_le_dec u (0.05 * s)) as [C3 | C3].
  { assert (0 < Fuzz.trimf1 (- 0.05 * s) 0 (0.05 * s) u)
      by (apply trimf1_pos; lra). lra. }
  destruct (Qlt_le_dec u (0.18 * s)) as [C4 | C4].
  { assert (0 < Fuzz.trimf1 (0.035 * s) (0.09 * s) (0.18 * s) u)
      by (apply trimf1_pos; lra). lra. }
  assert (0 < Fuzz.trapmf1 (0.14 * s) (0.22 * s) s s u)
    by (apply trapmf1_pos_high; lra). lra.
Qed.

Lemma x_shape_mirror (p : FuzzyPlayer) (n : X.label) (u u' : Q) :
  0 < W p -> u' == - u -> x_shape p (X_mirror n) u' == x_shape p n u.
Proof.
  intros Hw Hu. pose proof (span_pos p Hw) as Hs.
  destruct n; simpl; revert Hs; generalize (span p); intros s Hs.
  - apply trapmf1_mirror; try exact Hu; try ring. lra.
  - apply trimf1_mirror; try exact Hu; ring.
  - apply trimf1_mirror; try exact Hu; ring.
  - apply trimf1_mirror; try exact Hu; ring.
  - apply trapmf1_mirror; try exact Hu; try ring. lra.
Qed.

Lemma mf_x_map_mirror (zo : bool) (p : FuzzyPlayer) (n : X.label) (x x' : Q) :
  (0 < surface_width (board p))%Z -> x' == - x ->
  mf_x_map zo p x' (X_mirror n) == mf_x_map zo p x n.
Proof.
  intros Hw Hx. pose proof (W_pos p Hw) as HW.
  rewrite !mf_x_map_sampled by exact Hw.
  apply sampled_mirror.
  - rewrite !half_eq. lra.
  - rewrite !half_eq. ring.
  - exact Hx.
  - intros u u' Hu. now apply x_shape_mirror.
Qed.

(** Claim C2, as the code has it.  For a board of positive width and every
    [x] within the horizontal universe [[-W/2, W/2]], each of the five
    horizontal membership degrees lies in [[0, 1]], and their sum is
    positive and at most 2.  (The sum is not at least 1: see
    [mf_x_sum_below_one].) *)
Theorem mf_x_degrees_and_sum (zo : bool) (p : FuzzyPlayer) (x : Q) :
  (0 < surface_width (board p))%Z ->
  - W p / 2 <= x <= W p / 2 ->
  (forall n, 0 <= mf_x_map zo p x n <= 1) /\
  0 < mf_x_sum zo p x <= 2.
Proof.
  intros Hw Hx. split; [intros n; now apply mf_x_map_range | ].
  pose proof (W_pos p Hw) as HW.
  assert (Hab : - W p / 2 < W p / 2) by (rewrite !half_eq; lra).
  unfold mf_x_sum. rewrite !mf_x_map_sampled by exact Hw.
  destruct (sampled_cases _ _ (x_cells p) Hab zo x)
    as [[Hlo _] | [[Hhi _] | [_ [i [_ [Hlt [Hga [Hgb [Hseg E]]]]]]]]];
    [lra | lra | ].
  rewrite !E, !lerp_add by exact Hlt.
  set (g := grid_point _ _) in *.
  fold (x_shape_sum p (g i)). fold (x_shape_sum p (g (S i))).
  assert (Hspan : forall u, - W p / 2 <= u <= W p / 2 -> - span p <= u <= span p).
  { intros u. unfold span. rewrite !half_eq. lra. }
  split.
  - apply lerp_pos; auto; apply x_shape_sum_pos; auto; apply Hspan; lra.
  - apply (lerp_bounds _ _ _ _ _ 0 2); auto; apply x_shape_sum_range; auto.
Qed.

Lemma mf_x_degrees_and_sum_witness :
  (0 < surface_width (board main_player))%Z /\
  - W main_player / 2 <= 0 <= W main_player / 2 /\
  (forall n, 0 <= mf_x_map true main_player 0 n <= 1) /\
  0 < mf_x_sum true main_player 0 <= 2.
Proof.
  assert (H1 : (0 < surface_width (board main_player))%Z) by reflexivity.
  assert (H2 : - W main_player / 2 <= 0 <= W main_player / 2)
    by (split; vm_compute; discriminate).
  exact (conj H1 (conj H2 (mf_x_degrees_and_sum true main_player 0 H1 H2))).
Defined.

(** Claim C2 as stated fails: on the 800-wide board the degrees at
    [x = -56], inside the universe, sum to 4/9, below 1. *)
Lemma mf_x_sum_below_one :
  - W main_player / 2 <= -56 <= W main_player / 2 /\
  mf_x_sum true main_player (-56) == 4 # 9 /\
  mf_x_sum false main_player (-56) == 4 # 9 /\
  ~ (1 <= mf_x_sum true main_player (-56) <= 2) /\
  ~ (1 <= mf_x_sum false main_player (-56) <= 2).
Proof.
  assert (E : forall zo, mf_x_sum zo main_player (-56) == 4 # 9)
    by (intros [ | ]; vm_compute; reflexivity).
  split; [split; vm_compute; discriminate | ].
  split; [apply E | ]. split; [apply E | ].
  split; rewrite E; intros [Hle _]; revert Hle; vm_compute; tauto.
Qed.

(** ** Rule aggregation *)

Lemma velocity_fx_scale (p : FuzzyPlayer) (n : V.label) (xd yd : Q) :
  velocity_fx p n xd yd == spec_scale n * VMAX p.
Proof. destruct n; simpl; ring. Qed.

Lemma tsk_sums_firing (p : FuzzyPlayer) (xe ya : Q) :
  forall (rules rules' : list (Q * V.label)) (n d : Q),
    same_rules rules rules' ->
    fst (fold_left (tsk_step p xe ya) rules (n, d)) ==
      n + spec_weighted_sum (VMAX p) (spec_firing rules') /\
    snd (fold_left (tsk_step p xe ya) rules (n, d)) ==
      d + spec_total_weight (spec_firing rules').
Proof.
  induction rules as [ | [w fx] rules IH]; intros rules' n d Hsame;
    inversion Hsame as [ | a [w' fx'] l l' [Hw Hfx] Hrest]; subst; simpl in *.
  - split; ring.
  - subst fx'. rewrite <- (ltb_compat 0 0 w w') by (reflexivity || assumption).
    unfold Py.ltb, Py.leb. destruct (Qle_bool w 0); simpl.
    + apply IH. exact Hrest.
    + destruct (IH l' (n + w * velocity_fx p fx xe ya) (d + w) Hrest) as [En Ed].
      rewrite En, Ed, velocity_fx_scale, Hw. split; ring.
Qed.

Lemma same_rules_base (zo : bool) (p : FuzzyPlayer) (xe ya : Q) :
  same_rules (tsk_rules zo p xe ya)
    (spec_rule_base (mf_x_map zo p xe) (mf_y_map zo p ya)).
Proof.
  unfold tsk_rules, spec_rule_base, same_rules.
  repeat constructor; simpl; try reflexivity; apply py_min_Qmin.
Qed.

Lemma tsk_aggregate_spec
    (zo : bool) (p : FuzzyPlayer) (x_edge y_abs : Q) :
  let firing :=
    spec_firing (spec_rule_base (mf_x_map zo p x_edge) (mf_y_map zo p y_abs)) in
  let total := spec_total_weight firing in
  exists v,
    tsk_aggregate zo p x_edge y_abs = Some v /\
    (total <= 1 # 1000000000 -> v = 0) /\
    (1 # 1000000000 < total ->
       v == spec_weighted_sum (VMAX p) firing / total).
Proof.
  intros firing total. unfold tsk_aggregate, tsk_sums.
  destruct (tsk_sums_firing p x_edge y_abs _ _ 0 0
              (same_rules_base zo p x_edge y_abs)) as [En Ed].
  fold firing in En, Ed. fold total in Ed.
  destruct (fold_left _ _ _) as [num den]. simpl in En, Ed.
  destruct (leb_spec den (1 # 1000000000)) as [Hle | Hgt].
  - exists 0. split; [reflexivity | ]. split; [reflexivity | ].
    intros; exfalso; lra.
  - unfold Py.div. destruct (eqb_spec den 0) as [Hz | Hnz]; [exfalso; lra | ].
    exists (num / den). split; [reflexivity | ].
    split; [intros; exfalso; lra | ]. intros _.
    rewrite En, Ed. field. lra.
Qed.

(** Claim C3.  For every corrected horizontal offset [x_edge] and every
    [y_abs], the aggregation stage of [_tsk_velocity] returns a value (its
    division never fails); that value is 0, with no division, when the
    total weight of the rules of positive weight is at most 1e-9, and
    otherwise it is the weighted sum of the consequents of those rules
    (the nine listed rules, consequents -1, -0.9, -0.7, 0, 0.7, 0.9, 1
    times the max speed) divided by their total weight. *)
Theorem tsk_aggregate_weighted_average
    (zo : bool) (p : FuzzyPlayer) (x_edge y_abs : Q) :
  let firing :=
    spec_firing (spec_rule_base (mf_x_map zo p x_edge) (mf_y_map zo p y_abs)) in
  let total := spec_total_weight firing in
  exists v,
    tsk_aggregate zo p x_edge y_abs = Some v /\
    (total <= 1 # 1000000000 -> v = 0) /\
    (1 # 1000000000 < total ->
       v == spec_weighted_sum (VMAX p) firing / total).
Proof. exact (tsk_aggregate_spec zo p x_edge y_abs). Qed.

Lemma tsk_aggregate_total (zo : bool) (p : FuzzyPlayer) (x_edge y_abs : Q) :
  exists v, tsk_aggregate zo p x_edge y_abs = Some v.
Proof.
  destruct (tsk_aggregate_spec zo p x_edge y_abs) as [v [E _]].
  now exists v.
Qed.

Lemma velocity_fx_bound (p : FuzzyPlayer) (n : V.label) (xd yd : Q) :
  0 <= VMAX p -> - VMAX p <= velocity_fx p n xd yd <= VMAX p.
Proof. intros HV. destruct n; simpl; lra. Qed.

Lemma tsk_step_balanced (p : FuzzyPlayer) (xe ya : Q) (acc : Q * Q)
    (rule : Q * V.label) :
  0 <= VMAX p -> balanced (VMAX p) acc ->
  balanced (VMAX p) (tsk_step p xe ya acc rule).
Proof.
  intros HV [Hd Hn]. destruct acc as [n d], rule as [w fx]. simpl in *.
  destruct (leb_spec w 0) as [Hw | Hw]; [split; assumption | ].
  pose proof (velocity_fx_bound p fx xe ya HV) as [Hz0 Hz1].
  assert (0 <= w * (VMAX p - velocity_fx p fx xe ya))
    by (apply Qmult_le_0_compat; lra).
  assert (0 <= w * (velocity_fx p fx xe ya + VMAX p))
    by (apply Qmult_le_0_compat; lra).
  split; simpl; [lra | ]. split; lra.
Qed.

Lemma tsk_sums_balanced (p : FuzzyPlayer) (xe ya : Q) :
  0 <= VMAX p ->
  forall rules acc, balanced (VMAX p) acc ->
    balanced (VMAX p) (fold_left (tsk_step p xe ya) rules acc).
Proof.
  intros HV. induction rules as [ | r rules IH]; intros acc Hacc; simpl.
  - exact Hacc.
  - apply IH. now apply tsk_step_balanced.
Qed.

Lemma tsk_aggregate_bound (zo : bool) (p : FuzzyPlayer) (xe ya v : Q) :
  0 <= VMAX p -> tsk_aggregate zo p xe ya = Some v ->
  - VMAX p <= v <= VMAX p.
Proof.
  intros HV. unfold tsk_aggregate, tsk_sums.
  assert (Hb : balanced (VMAX p) (0, 0)) by (split; simpl; lra).
  pose proof (tsk_sums_balanced p xe ya HV (tsk_rules zo p xe ya) (0, 0) Hb)
    as [Hd [Hlo Hhi]].
  destruct (fold_left _ _ _) as [num den]. simpl in *.
  destruct (leb_spec den (1 # 1000000000)) as [Hle | Hgt].
  - intros E. injection E as <-. lra.
  - unfold Py.div. destruct (eqb_spec den 0); [discriminate | ].
    intros E. injection E as <-. split.
    + apply Qle_shift_div_l; lra.
    + apply Qle_shift_div_r; lra.
Qed.

Lemma tsk_velocity_total (zo : bool) (p : FuzzyPlayer) (x y : Q) :
  exists v, tsk_velocity zo p x y = Some v.
Proof.
  destruct (tsk_aggregate_total zo p (x_edge_of zo p x y) y) as [v E].
  exists (tsk_cutoff v). unfold tsk_velocity. now rewrite E.
Qed.

Lemma tsk_velocity_bound (zo : bool) (p : FuzzyPlayer) (x y v : Q) :
  0 <= VMAX p -> tsk_velocity zo p x y = Some v ->
  - VMAX p <= v <= VMAX p.
Proof.
  intros HV. unfold tsk_velocity.
  destruct (tsk_aggregate zo p (x_edge_of zo p x y) y) as [u | ] eqn:E;
    [ | discriminate].
  simpl. intros Ev. injection Ev as <-.
  pose proof (tsk_aggregate_bound zo p _ _ u HV E).
  unfold tsk_cutoff. destruct (Py.ltb (Qabs u) cutoff_v); lra.
Qed.

Lemma firing_sums (vmax : Q) (rules : list (Q * V.label)) :
  spec_weighted_sum vmax (spec_firing rules) ==
    fold_right (fun r s => gated (fst r) * (spec_scale (snd r) * vmax) + s) 0 rules /\
  spec_total_weight (spec_firing rules) ==
    fold_right (fun r s => gated (fst r) + s) 0 rules.
Proof.
  induction rules as [ | [w n] rules [IHn IHd]]; simpl; [split; reflexivity | ].
  unfold gated at 1 3. destruct (Py.ltb 0 w); simpl; rewrite ?IHn, ?IHd; split; ring.
Qed.

#[local] Instance gated_proper : Proper (Qeq ==> Qeq) gated.
Proof.
  intros w w' Hw. unfold gated.
  rewrite (ltb_compat 0 0 w w' (Qeq_refl 0) Hw).
  destruct (Py.ltb 0 w'); [exact Hw | reflexivity].
Qed.

Lemma rule_base_mirror (vmax : Q) (x x' : X.label -> Q) (y : Y.label -> Q) :
  (forall n, x' (X_mirror n) == x n) ->
  spec_weighted_sum vmax (spec_firing (spec_rule_base x' y)) ==
    - spec_weighted_sum vmax (spec_firing (spec_rule_base x y)) /\
  spec_total_weight (spec_firing (spec_rule_base x' y)) ==
    spec_total_weight (spec_firing (spec_rule_base x y)).
Proof.
  intros Hm.
  destruct (firing_sums vmax (spec_rule_base x' y)) as [En' Ed'].
  destruct (firing_sums vmax (spec_rule_base x y)) as [En Ed].
  rewrite En', Ed', En, Ed. simpl.
  pose proof (Hm X.far_right) as Hfr. pose proof (Hm X.right) as Hr.
  pose proof (Hm X.center) as Hc. pose proof (Hm X.left) as Hl.
  pose proof (Hm X.far_left) as Hfl. simpl in *.
  rewrite Hfr, Hr, Hc, Hl, Hfl. split; ring.
Qed.

Lemma tsk_aggregate_mirror (zo : bool) (p : FuzzyPlayer) (xe xe' y v v' : Q) :
  (0 < surface_width (board p))%Z -> xe' == - xe ->
  tsk_aggregate zo p xe y = Some v -> tsk_aggregate zo p xe' y = Some v' ->
  v' == - v.
Proof.
  intros Hw Hx E E'.
  destruct (tsk_aggregate_spec zo p xe y) as [u [Eu [Hz Hq]]].
  destruct (tsk_aggregate_spec zo p xe' y) as [u' [Eu' [Hz' Hq']]].
  rewrite E in Eu. injection Eu as <-. rewrite E' in Eu'. injection Eu' as <-.
  destruct (rule_base_mirror (VMAX p) (mf_x_map zo p xe) (mf_x_map zo p xe')
              (mf_y_map zo p y)) as [Mn Md].
  { intros n. now apply mf_x_map_mirror. }
  rewrite Mn, Md in Hq'. rewrite Md in Hz'.
  destruct (Qlt_le_dec (1 # 1000000000)
              (spec_total_weight
                 (spec_firing
                    (spec_rule_base (mf_x_map zo p xe) (mf_y_map zo p y)))))
    as [Hgt | Hle].
  - rewrite (Hq Hgt), (Hq' Hgt). field. lra.
  - rewrite (Hz Hle), (Hz' Hle). reflexivity.
Qed.

(** ** The cutoff *)

(** Claim C1, as the code has it.  For every player (so every max speed)
    and every input of [_tsk_velocity], the aggregated velocity [v] is
    returned as 0 when [|v| < 0.10], the constant [cutoff_v] taken as an
    absolute speed, and unchanged otherwise. *)
Theorem tsk_velocity_cutoff (zo : bool) (p : FuzzyPlayer) (x_val y_abs : Q) :
  exists v,
    tsk_aggregate zo p (x_edge_of zo p x_val y_abs) y_abs = Some v /\
    (Qabs v < 0.10 -> tsk_velocity zo p x_val y_abs = Some 0) /\
    (0.10 <= Qabs v -> tsk_velocity zo p x_val y_abs = Some v).
Proof.
  destruct (tsk_aggregate_total zo p (x_edge_of zo p x_val y_abs) y_abs)
    as [v E].
  exists v. split; [exact E | ]. unfold tsk_velocity. rewrite E. simpl.
  unfold tsk_cutoff, cutoff_v.
  split; intros Hv; destruct (ltb_spec (Qabs v) 0.10); auto; exfalso; lra.
Qed.

Lemma aggregate_main_27_150 (zo : bool) :
  option_map Qred
    (tsk_aggregate zo main_player (x_edge_of zo main_player 27 150) 150)
  = Some (-25 # 41).
Proof. destruct zo; vm_compute; reflexivity. Qed.

Lemma aggregate_slow_27_150 (zo : bool) :
  option_map Qred
    (tsk_aggregate zo slow_player (x_edge_of zo slow_player 27 150) 150)
  = Some (-5 # 82).
Proof. destruct zo; vm_compute; reflexivity. Qed.

Lemma cutoff_not_scaled_at :
  forall zo,
    (exists v,
       tsk_aggregate zo main_player (x_edge_of zo main_player 27 150) 150
         = Some v /\
       Qabs v < cutoff_v * VMAX main_player /\
       tsk_velocity zo main_player 27 150 = Some v /\ ~ v == 0) /\
    ~ (exists c : Q, forall p x y v,
         tsk_aggregate zo p (x_edge_of zo p x y) y = Some v ->
         tsk_velocity zo p x y =
           Some (if Py.ltb (Qabs v) (c * VMAX p) then 0 else v)).
Proof.
  intros zo.
  pose proof (aggregate_main_27_150 zo) as A10.
  pose proof (aggregate_slow_27_150 zo) as A1.
  destruct (tsk_aggregate zo main_player (x_edge_of zo main_player 27 150) 150)
    as [v10 | ] eqn:E10; [ | discriminate].
  destruct (tsk_aggregate zo slow_player (x_edge_of zo slow_player 27 150) 150)
    as [v1 | ] eqn:E1; [ | discriminate].
  simpl in A10, A1.
  assert (V10 : v10 == -25 # 41).
  { rewrite <- (Qred_correct v10). injection A10 as ->. reflexivity. }
  assert (V1 : v1 == -5 # 82).
  { rewrite <- (Qred_correct v1). injection A1 as ->. reflexivity. }
  clear A10 A1.
  assert (T10 : tsk_velocity zo main_player 27 150 = Some v10).
  { unfold tsk_velocity. rewrite E10. simpl. unfold tsk_cutoff, cutoff_v.
    destruct (ltb_spec (Qabs v10) 0.10) as [Hlt | _]; [ | reflexivity].
    exfalso. rewrite V10 in Hlt. revert Hlt. vm_compute. discriminate. }
  assert (T1 : tsk_velocity zo slow_player 27 150 = Some 0).
  { unfold tsk_velocity. rewrite E1. simpl. unfold tsk_cutoff, cutoff_v.
    destruct (ltb_spec (Qabs v1) 0.10) as [_ | Hge]; [reflexivity | ].
    exfalso. apply Hge. rewrite V1. vm_compute. reflexivity. }
  assert (N10 : ~ v10 == 0) by (rewrite V10; vm_compute; discriminate).
  assert (N1 : ~ v1 == 0) by (rewrite V1; vm_compute; discriminate).
  split.
  - exists v10. split; [reflexivity | ]. split; [ | split; assumption].
    rewrite V10. vm_compute. reflexivity.
  - intros [c Hc].
    pose proof (Hc main_player 27 150 v10 E10) as H10.
    pose proof (Hc slow_player 27 150 v1 E1) as H1.
    rewrite T10 in H10. rewrite T1 in H1.
    change (VMAX main_player) with (10 # 1) in H10.
    change (VMAX slow_player) with (1 # 1) in H1.
    destruct (ltb_spec (Qabs v10) (c * (10 # 1))) as [_ | G10].
    { injection H10 as H10. apply N10. rewrite H10. reflexivity. }
    destruct (ltb_spec (Qabs v1) (c * (1 # 1))) as [G1 | _].
    2:{ injection H1 as H1. apply N1. rewrite <- H1. reflexivity. }
    rewrite V10 in G10. rewrite V1 in G1.
    change (Qabs (-25 # 41)) with (25 # 41) in G10.
    change (Qabs (-5 # 82)) with (5 # 82) in G1. lra.
Qed.

(** Claim C1 as stated fails.  With max speed 10 the input
    [(27, 150)] aggregates to -25/41, whose magnitude is below
    [cutoff_v * VMAX = 1], and it is returned unchanged; and no fraction
    [c] at all makes [c * VMAX] the threshold, since with max speed 1 the
    same input aggregates to -5/82 and is snapped to 0.  (Stated for both
    settings of [zero_outside_x].) *)
Lemma tsk_cutoff_not_scaled_by_vmax :
  (exists v,
     tsk_aggregate true main_player (x_edge_of true main_player 27 150) 150
       = Some v /\
     Qabs v < cutoff_v * VMAX main_player /\
     tsk_velocity true main_player 27 150 = Some v /\ ~ v == 0) /\
  (exists v,
     tsk_aggregate false main_player (x_edge_of false main_player 27 150) 150
       = Some v /\
     Qabs v < cutoff_v * VMAX main_player /\
     tsk_velocity false main_player 27 150 = Some v /\ ~ v == 0) /\
  ~ (exists c : Q, forall p x y v,
       tsk_aggregate true p (x_edge_of true p x y) y = Some v ->
       tsk_velocity true p x y =
         Some (if Py.ltb (Qabs v) (c * VMAX p) then 0 else v)) /\
  ~ (exists c : Q, forall p x y v,
       tsk_aggregate false p (x_edge_of false p x y) y = Some v ->
       tsk_velocity false p x y =
         Some (if Py.ltb (Qabs v) (c * VMAX p) then 0 else v)).
Proof.
  destruct (cutoff_not_scaled_at true) as [T1 T2].
  destruct (cutoff_not_scaled_at false) as [F1 F2].
  repeat split; assumption.
Qed.

(** ** The edge shift *)

Lemma edge_weight_nonneg (zo : bool) (p : FuzzyPlayer) (y_abs : Q) :
  (0 < surface_height (board p))%Z -> 0 <= edge_weight zo p y_abs.
Proof.
  intros Hh. unfold edge_weight.
  pose proof (mf_y_map_range zo p y_abs Y.near Hh).
  pose proof (mf_y_map_range zo p y_abs Y.mid Hh).
  pose proof (mf_y_map_range zo p y_abs Y.far Hh). lra.
Qed.

(** Claim C4.  For every raw offset [dx] and every [y_abs], on a board of
    positive height and with a paddle of non-negative width, the inference
    of [_tsk_velocity] (the memberships, the rules and their aggregate,
    then the cutoff) runs at [dx - s] and not at [dx], where the magnitude
    of [s] is [w * 0.25 * PW] with [w = 0.9 near + 0.4 mid + 0.05 far] over
    the vertical degrees, and [s] has the sign of [dx]: it is that
    magnitude for positive [dx] and its opposite for negative [dx]. *)
Theorem x_edge_signed_correction (zo : bool) (p : FuzzyPlayer) (dx y_abs : Q) :
  (0 <= width (racket p))%Z ->
  (0 < surface_height (board p))%Z ->
  let w := 0.9 * mf_y_map zo p y_abs Y.near +
           0.4 * mf_y_map zo p y_abs Y.mid +
           0.05 * mf_y_map zo p y_abs Y.far in
  let s := edge_shift zo p y_abs dx in
  tsk_velocity zo p dx y_abs =
    (v <- tsk_aggregate zo p (dx - s) y_abs ;; Some (tsk_cutoff v)) /\
  map fst (tsk_rules zo p (dx - s) y_abs) =
    [ mf_x_map zo p (dx - s) X.far_left;
      mf_x_map zo p (dx - s) X.far_right;
      Py.min (mf_x_map zo p (dx - s) X.left) (mf_y_map zo p y_abs Y.near);
      Py.min (mf_x_map zo p (dx - s) X.right) (mf_y_map zo p y_abs Y.near);
      Py.min (mf_x_map zo p (dx - s) X.left) (mf_y_map zo p y_abs Y.mid);
      Py.min (mf_x_map zo p (dx - s) X.right) (mf_y_map zo p y_abs Y.mid);
      Py.min (mf_x_map zo p (dx - s) X.left) (mf_y_map zo p y_abs Y.far);
      Py.min (mf_x_map zo p (dx - s) X.right) (mf_y_map zo p y_abs Y.far);
      mf_x_map zo p (dx - s) X.center ] /\
  x_edge_of zo p dx y_abs = dx - s /\
  Qabs s == w * 0.25 * PW p /\
  (0 < dx -> s == w * 0.25 * PW p) /\
  (dx < 0 -> s == - (w * 0.25 * PW p)).
Proof.
  intros Hpw Hh w s.
  pose proof (edge_weight_nonneg zo p y_abs Hh) as Hw.
  pose proof (PW_nonneg p Hpw) as HP.
  fold (edge_weight zo p y_abs) in w.
  assert (Hm : 0 <= edge_weight zo p y_abs * (0.25 * PW p))
    by (apply Qmult_le_0_compat; lra).
  destruct (copysign_cases (edge_weight zo p y_abs * (0.25 * PW p)) dx Hm)
    as [Hneg Hpos].
  fold (edge_shift zo p y_abs dx) in Hneg, Hpos. fold s in Hneg, Hpos.
  subst w. split; [reflexivity | ]. split; [reflexivity | ].
  split; [reflexivity | ]. split; [ | split].
  - destruct (Qlt_le_dec dx 0) as [Hd | Hd].
    + rewrite (Hneg Hd), Qabs_opp, Qabs_pos by exact Hm. ring.
    + rewrite (Hpos Hd), Qabs_pos by exact Hm. ring.
  - intros Hd. rewrite Hpos by lra. ring.
  - intros Hd. rewrite Hneg by lra. ring.
Qed.

Lemma x_edge_signed_correction_witness :
  (0 <= width (racket main_player))%Z /\
  (0 < surface_height (board main_player))%Z /\
  tsk_velocity true main_player 27 150 =
    (v <- tsk_aggregate true main_player
            (27 - edge_shift true main_player 150 27) 150 ;;
     Some (tsk_cutoff v)) /\
  Qabs (edge_shift true main_player 150 27)
    == (0.9 * mf_y_map true main_player 150 Y.near +
        0.4 * mf_y_map true main_player 150 Y.mid +
        0.05 * mf_y_map true main_player 150 Y.far) * 0.25 * PW main_player.
Proof.
  assert (H1 : (0 <= width (racket main_player))%Z) by (simpl; lia).
  assert (H2 : (0 < surface_height (board main_player))%Z) by reflexivity.
  destruct (x_edge_signed_correction true main_player 27 150 H1 H2)
    as [E [_ [_ [A _]]]].
  exact (conj H1 (conj H2 (conj E A))).
Defined.

(** The correction changes the outcome: on the program's board the offset
    27 at distance 150 is corrected to 14.4, where the inference gives
    -25/41; at the raw offset the aggregate would be -10. *)
Remark edge_correction_matters (zo : bool) :
  x_edge_of zo main_player 27 150 == 14.4 /\
  (exists v, tsk_velocity zo main_player 27 150 = Some v /\ v == -25 # 41) /\
  (exists u, tsk_aggregate zo main_player 27 150 = Some u /\ u == -10).
Proof.
  destruct zo; (split; [vm_compute; reflexivity | ]);
    (split; eexists; (split; [vm_compute; reflexivity | vm_compute; reflexivity])).
Qed.

Lemma edge_shift_mirror (zo : bool) (p : FuzzyPlayer) (y x x' : Q) :
  x' == - x -> ~ x == 0 ->
  edge_shift zo p y x' == - edge_shift zo p y x.
Proof.
  intros Hx Hnz. unfold edge_shift, Py.copysign.
  destruct (ltb_spec x' 0), (ltb_spec x 0); try (exfalso; lra);
    try reflexivity; try ring.
Qed.

(** ** One call of act *)

Lemma boosted_zero (p : FuzzyPlayer) (x y : Q) : boosted p x y 0 = 0.
Proof. unfold boosted. now destruct (prev_y_abs p). Qed.

Lemma boosted_spec (p : FuzzyPlayer) (x y v : Q) :
  (boost_condition p x y v ->
     boosted p x y v = clamp (VMAX p) (v * boost_gain)) /\
  (~ boost_condition p x y v -> boosted p x y v = v).
Proof.
  unfold boost_condition, boosted, clamp.
  destruct (prev_y_abs p) as [prev | ].
  - destruct (eqb_spec v 0) as [Hv | Hv];
      destruct (leb_spec dead_x (Qabs x)) as [Hx | Hx];
      destruct (ltb_spec y (prev - 0.001)) as [Hy | Hy];
      simpl; split; intros HC; try reflexivity.
    all: try (destruct HC as [[r [Er Hr]] [HCv HCx]]; injection Er as <-;
              exfalso; tauto).
    exfalso. apply HC. split; [exists prev; auto | auto].
  - split; [intros [[r [Er _]] _]; discriminate | reflexivity].
Qed.

Lemma boosted_bounds (p : FuzzyPlayer) (x y v : Q) :
  0 <= VMAX p -> - VMAX p <= v <= VMAX p ->
  Qabs v <= Qabs (boosted p x y v) <= VMAX p.
Proof.
  intros HV Hv. destruct (boosted_spec p x y v) as [Hyes Hno].
  assert (Hcase : boosted p x y v = clamp (VMAX p) (v * boost_gain) \/
                  boosted p x y v = v).
  { unfold boosted, clamp. destruct (prev_y_abs p); auto.
    destruct (_ && _); auto. destruct (Py.ltb _ _); auto. }
  destruct Hcase as [E | E]; rewrite E.
  - destruct (clamp_spec (VMAX p) (v * boost_gain) HV) as [Hr [Hin [Hhi Hlo]]].
    unfold boost_gain in *.
    destruct (Qlt_le_dec (VMAX p) (v * 1.10)) as [C1 | C1].
    { rewrite Hhi by lra. qabs v; qabs (VMAX p); lra. }
    destruct (Qlt_le_dec (v * 1.10) (- VMAX p)) as [C2 | C2].
    { rewrite Hlo by lra. rewrite Qabs_opp. qabs v; qabs (VMAX p); lra. }
    rewrite Hin by lra. qabs v; qabs (v * 1.10); lra.
  - split; [lra | ]. apply Qabs_Qle_condition. exact Hv.
Qed.

Lemma base_velocity_total (zo : bool) (p : FuzzyPlayer) (x y : Q) :
  exists v0, base_velocity (tsk_velocity zo) p x y = Some v0.
Proof.
  unfold base_velocity. destruct (Py.ltb (Qabs x) dead_x).
  - now exists 0.
  - apply tsk_velocity_total.
Qed.

Lemma base_velocity_bound (zo : bool) (p : FuzzyPlayer) (x y v0 : Q) :
  0 <= VMAX p -> base_velocity (tsk_velocity zo) p x y = Some v0 ->
  - VMAX p <= v0 <= VMAX p.
Proof.
  intros HV. unfold base_velocity. destruct (Py.ltb (Qabs x) dead_x).
  - intros E. injection E as <-. lra.
  - now apply tsk_velocity_bound.
Qed.

Lemma act_result (zo : bool) (rc : Q -> Z) (p : FuzzyPlayer) (dx dy v0 : Q) :
  base_velocity (tsk_velocity zo) p (Py.float dx) (Py.float (Qabs dy)) = Some v0 ->
  act zo rc p dx dy =
    Some (after_act rc p (Py.float (Qabs dy))
            (boosted p (Py.float dx) (Py.float (Qabs dy)) v0)).
Proof. intros E. unfold act, act_with. rewrite E. reflexivity. Qed.

Lemma boost_condition_compat (p : FuzzyPlayer) (x x' y y' v : Q) :
  x == x' -> y == y' ->
  boost_condition p x y v <-> boost_condition p x' y' v.
Proof.
  intros Hx Hy. unfold boost_condition.
  split; intros [[prev [E Hp]] [Hv Hd]]; (split; [exists prev | ]);
    repeat split; auto.
  - now rewrite <- Hy.
  - now rewrite <- Hx.
  - now rewrite Hy.
  - now rewrite Hx.
Qed.

Lemma boost_gain_gt_1 : 1 < boost_gain.
Proof. reflexivity. Qed.

Lemma boosted_cases (p : FuzzyPlayer) (x y v : Q) :
  boosted p x y v = clamp (VMAX p) (v * boost_gain) \/ boosted p x y v = v.
Proof.
  unfold boosted, clamp. destruct (prev_y_abs p); auto.
  destruct (_ && _); auto. destruct (Py.ltb _ _); auto.
Qed.

Lemma act_velocity (zo : bool) (rc : Q -> Z) (p : FuzzyPlayer) (dx dy v0 : Q) :
  base_velocity (tsk_velocity zo) p (Py.float dx) (Py.float (Qabs dy)) = Some v0 ->
  exists p' a,
    act zo rc p dx dy = Some (p', a) /\
    velocity a = boosted p (Py.float dx) (Py.float (Qabs dy)) v0.
Proof.
  intros E. rewrite (act_result zo rc p dx dy v0 E). unfold after_act.
  do 2 eexists. split; reflexivity.
Qed.

Lemma act_total (zo : bool) (rc : Q -> Z) (p : FuzzyPlayer) (dx dy : Q) :
  exists r, act zo rc p dx dy = Some r.
Proof.
  destruct (base_velocity_total zo p (Py.float dx) (Py.float (Qabs dy)))
    as [v E].
  rewrite (act_result zo rc p dx dy v E). eexists. reflexivity.
Qed.

(** Claim C5.  For every [dy] and every player, if [|dx|] is below the
    dead zone then [act] settles on velocity exactly 0 and calls [move]
    with the paddle's current x-position; the result is the same whatever
    inference routine [act] is given, so the inference is not consulted. *)
Theorem act_dead_zone (zo : bool) (rc : Q -> Z)
    (infer : FuzzyPlayer -> Q -> Q -> option Q)
    (p : FuzzyPlayer) (dx dy : Q) :
  Qabs dx < dead_x ->
  exists p' a,
    act zo rc p dx dy = Some (p', a) /\
    act_with rc infer p dx dy = Some (p', a) /\
    velocity a = 0 /\
    move_to a == inject_Z (rect_x (racket p)).
Proof.
  intros Hdead. unfold act, act_with, base_velocity.
  rewrite (ltb_compat _ (Qabs dx) _ dead_x (abs_float_eq dx) (Qeq_refl _)).
  destruct (ltb_spec (Qabs dx) dead_x) as [_ | N]; [ | contradiction].
  simpl. rewrite boosted_zero. eexists. eexists.
  split; [reflexivity | ]. split; [reflexivity | ]. split; [reflexivity | ].
  simpl. ring.
Qed.

Lemma act_dead_zone_witness :
  Qabs 0.5 < dead_x /\
  exists p' a,
    act true rect_trunc main_player 0.5 50 = Some (p', a) /\
    act_with rect_trunc (fun _ _ _ => None) main_player 0.5 50
      = Some (p', a) /\
    velocity a = 0 /\
    move_to a == inject_Z (rect_x (racket main_player)).
Proof.
  assert (H1 : Qabs 0.5 < dead_x) by reflexivity.
  exact (conj H1
           (act_dead_zone true rect_trunc (fun _ _ _ => None)
              main_player 0.5 50 H1)).
Defined.

(** In exact arithmetic, for every input, every player state and a
    non-negative max speed, [act] returns, the argument of its [move] call
    is the paddle's x-position plus the velocity, and the magnitude of that
    velocity is at most [VMAX]: a weighted average of consequents within
    [[-VMAX, VMAX]] stays there, and the boost is clamped. *)
Lemma exact_velocity_within_vmax (zo : bool) (rc : Q -> Z)
    (p : FuzzyPlayer) (dx dy : Q) :
  (0 <= max_speed (racket p))%Z ->
  exists p' a,
    act zo rc p dx dy = Some (p', a) /\
    move_to a == inject_Z (rect_x (racket p)) + velocity a /\
    Qabs (velocity a) <= VMAX p.
Proof.
  intros Hms. pose proof (VMAX_nonneg p Hms) as HV.
  destruct (base_velocity_total zo p (Py.float dx) (Py.float (Qabs dy)))
    as [v0 E].
  rewrite (act_result zo rc p dx dy v0 E). eexists. eexists.
  split; [reflexivity | ]. simpl. split; [reflexivity | ].
  apply boosted_bounds; [exact HV | ].
  exact (base_velocity_bound zo p _ _ v0 HV E).
Qed.

Lemma exact_velocity_within_vmax_witness :
  (0 <= max_speed (racket main_player))%Z /\
  exists p' a,
    act true rect_trunc main_player 50 10 = Some (p', a) /\
    move_to a == inject_Z (rect_x (racket main_player)) + velocity a /\
    Qabs (velocity a) <= VMAX main_player.
Proof.
  assert (H1 : (0 <= max_speed (racket main_player))%Z) by (simpl; lia).
  exact (conj H1 (exact_velocity_within_vmax true rect_trunc main_player 50 10 H1)).
Defined.

Lemma after_act_state (rc : Q -> Z) (p : FuzzyPlayer) (y v : Q) :
  prev_y_abs (fst (after_act rc p y v)) = Some y /\
  max_speed (racket (fst (after_act rc p y v))) = max_speed (racket p) /\
  velocity (snd (after_act rc p y v)) = v.
Proof. unfold after_act. simpl. auto. Qed.

Lemma boost_condition_stored (p : FuzzyPlayer) (x y prev v : Q) :
  prev_y_abs p = Some prev ->
  boost_condition p x y v <->
  y < prev - 0.001 /\ ~ v == 0 /\ dead_x <= Qabs x.
Proof.
  intros E. unfold boost_condition. rewrite E. split.
  - intros [[r [Er Hr]] H]. injection Er as <-. tauto.
  - intros [Hy H]. split; [exists prev; auto | exact H].
Qed.

(** Claim C6.  With a non-negative max speed, a call [act dx dy] on any
    player settles on the velocity [v0] of the dead zone or the inference,
    multiplied by the boost gain (which exceeds 1) and clamped to
    [[-VMAX, VMAX]], exactly when a previous [|dy|] is stored, [v0] is not
    zero, [|dx|] is at least the dead zone and [|dy|] is below the stored
    value by more than 0.001; otherwise it settles on [v0] unchanged.  The
    call stores its [|dy|], so in a following call with the same [dx]
    beyond the dead zone, where the inference gives [u], the velocity is
    [u] times the gain, clamped, exactly when [u] is not zero and [|dy'|]
    is below [|dy|] by more than 0.001, and then of magnitude at most
    [VMAX]; otherwise it is [u].  Whenever [|u|] is itself at most [VMAX],
    the magnitude of the second velocity lies between [|u|] and [VMAX]. *)
Theorem act_boost (zo : bool) (rc : Q -> Z) (p : FuzzyPlayer) (dx dy dy' : Q) :
  (0 <= max_speed (racket p))%Z ->
  exists v0 p1 a1 u p2 a2,
    base_velocity (tsk_velocity zo) p (Py.float dx) (Py.float (Qabs dy))
      = Some v0 /\
    act zo rc p dx dy = Some (p1, a1) /\
    1 < boost_gain /\
    (boost_condition p dx (Qabs dy) v0 ->
       velocity a1 = clamp (VMAX p) (v0 * boost_gain)) /\
    (~ boost_condition p dx (Qabs dy) v0 -> velocity a1 = v0) /\
    prev_y_abs p1 = Some (Py.float (Qabs dy)) /\
    base_velocity (tsk_velocity zo) p1 (Py.float dx) (Py.float (Qabs dy'))
      = Some u /\
    act zo rc p1 dx dy' = Some (p2, a2) /\
    (dead_x <= Qabs dx ->
       tsk_velocity zo p1 (Py.float dx) (Py.float (Qabs dy')) = Some u) /\
    (dead_x <= Qabs dx /\ Qabs dy' < Qabs dy - 0.001 /\ ~ u == 0 ->
       velocity a2 = clamp (VMAX p) (u * boost_gain) /\
       Qabs (velocity a2) <= VMAX p) /\
    (~ (dead_x <= Qabs dx /\ Qabs dy' < Qabs dy - 0.001 /\ ~ u == 0) ->
       velocity a2 = u) /\
    (Qabs u <= VMAX p -> Qabs u <= Qabs (velocity a2) <= VMAX p).
Proof.
  intros Hms. pose proof (VMAX_nonneg p Hms) as HV.
  destruct (base_velocity_total zo p (Py.float dx) (Py.float (Qabs dy)))
    as [v0 E].
  pose proof (act_result zo rc p dx dy v0 E) as A1.
  pose proof (after_act_state rc p (Py.float (Qabs dy))
                (boosted p (Py.float dx) (Py.float (Qabs dy)) v0))
    as [S1 [M1 Ea]].
  destruct (after_act rc p (Py.float (Qabs dy))
              (boosted p (Py.float dx) (Py.float (Qabs dy)) v0))
    as [p1 a1]. simpl in S1, M1, Ea.
  assert (HV1 : VMAX p1 = VMAX p) by (unfold VMAX; now rewrite M1).
  destruct (base_velocity_total zo p1 (Py.float dx) (Py.float (Qabs dy')))
    as [u E'].
  pose proof (act_result zo rc p1 dx dy' u E') as A2.
  pose proof (after_act_state rc p1 (Py.float (Qabs dy'))
                (boosted p1 (Py.float dx) (Py.float (Qabs dy')) u))
    as [_ [_ Ea2]].
  destruct (after_act rc p1 (Py.float (Qabs dy'))
              (boosted p1 (Py.float dx) (Py.float (Qabs dy')) u))
    as [p2 a2]. simpl in Ea2.
  exists v0, p1, a1, u, p2, a2.
  split; [exact E | ]. split; [exact A1 | ].
  split; [exact boost_gain_gt_1 | ].
  destruct (boosted_spec p (Py.float dx) (Py.float (Qabs dy)) v0)
    as [Hyes Hno].
  pose proof (boost_condition_compat p (Py.float dx) dx
                (Py.float (Qabs dy)) (Qabs dy) v0
                (float_eq dx) (float_eq (Qabs dy))) as Hiff.
  split; [intros HC; rewrite Ea; apply Hyes; tauto | ].
  split; [intros HC; rewrite Ea; apply Hno; tauto | ].
  split; [exact S1 | ]. split; [exact E' | ]. split; [exact A2 | ].
  destruct (boosted_spec p1 (Py.float dx) (Py.float (Qabs dy')) u)
    as [Hyes2 Hno2].
  pose proof (boost_condition_stored p1 (Py.float dx) (Py.float (Qabs dy'))
                (Py.float (Qabs dy)) u S1) as Hst.
  assert (Hst' : boost_condition p1 (Py.float dx) (Py.float (Qabs dy')) u <->
                 dead_x <= Qabs dx /\ Qabs dy' < Qabs dy - 0.001 /\ ~ u == 0).
  { rewrite Hst. pose proof (abs_float_eq dx) as F1.
    pose proof (float_eq (Qabs dy)) as F2.
    pose proof (float_eq (Qabs dy')) as F3.
    split; intros [C1 [C2 C3]]; repeat split; try assumption; lra. }
  clear Hst. rewrite HV1 in Hyes2.
  split.
  { intros Hdead. revert E'. unfold base_velocity.
    destruct (ltb_spec (Qabs (Py.float dx)) dead_x) as [Hlt | _]; [ | auto].
    rewrite abs_float_eq in Hlt. exfalso. lra. }
  split.
  { intros HC. rewrite Ea2, Hyes2 by (apply Hst'; exact HC).
    split; [reflexivity | ].
    apply Qabs_Qle_condition.
    exact (proj1 (clamp_spec (VMAX p) (u * boost_gain) HV)). }
  split.
  { intros HC. rewrite Ea2. apply Hno2. intros HB. apply HC.
    apply Hst'. exact HB. }
  intros Hu. rewrite Ea2, <- HV1. apply boosted_bounds.
  - rewrite HV1. exact HV.
  - rewrite HV1. apply Qabs_Qle_condition. exact Hu.
Qed.

Lemma act_boost_witness :
  (0 <= max_speed (racket main_player))%Z /\
  exists v0 p1 a1 u p2 a2,
    base_velocity (tsk_velocity true) main_player
      (Py.float 50) (Py.float (Qabs 100)) = Some v0 /\
    act true rect_trunc main_player 50 100 = Some (p1, a1) /\
    prev_y_abs p1 = Some (Py.float (Qabs 100)) /\
    base_velocity (tsk_velocity true) p1 (Py.float 50) (Py.float (Qabs 10))
      = Some u /\
    act true rect_trunc p1 50 10 = Some (p2, a2).
Proof.
  assert (H1 : (0 <= max_speed (racket main_player))%Z) by (simpl; lia).
  destruct (act_boost true rect_trunc main_player 50 100 10 H1)
    as [v0 [p1 [a1 [u [p2 [a2 [E [A [_ [_ [_ [S [E' [A2 _]]]]]]]]]]]]]].
  split; [exact H1 | ].
  exists v0, p1, a1, u, p2, a2. auto.
Defined.

(** ** Mirror symmetry *)

Lemma tsk_cutoff_mirror (v v' : Q) :
  v' == - v -> tsk_cutoff v' == - tsk_cutoff v.
Proof.
  intros Hv. unfold tsk_cutoff.
  assert (Ha : Qabs v' == Qabs v) by (rewrite Hv; apply Qabs_opp).
  rewrite (ltb_compat _ _ _ _ Ha (Qeq_refl cutoff_v)).
  destruct (Py.ltb (Qabs v) cutoff_v); [reflexivity | exact Hv].
Qed.

Lemma tsk_velocity_mirror (zo : bool) (p : FuzzyPlayer) (x x' y v v' : Q) :
  (0 < surface_width (board p))%Z -> x' == - x -> ~ x == 0 ->
  tsk_velocity zo p x y = Some v -> tsk_velocity zo p x' y = Some v' ->
  v' == - v.
Proof.
  intros Hw Hx Hnz. unfold tsk_velocity.
  destruct (tsk_aggregate zo p (x_edge_of zo p x y) y) as [u | ] eqn:E;
    [ | discriminate].
  destruct (tsk_aggregate zo p (x_edge_of zo p x' y) y) as [u' | ] eqn:E';
    [ | discriminate].
  simpl. intros Ev Ev'. injection Ev as <-. injection Ev' as <-.
  apply tsk_cutoff_mirror.
  apply (tsk_aggregate_mirror zo p (x_edge_of zo p x y) (x_edge_of zo p x' y)
           y u u' Hw); [ | exact E | exact E'].
  unfold x_edge_of. rewrite (edge_shift_mirror zo p y x x' Hx Hnz), Hx. ring.
Qed.

Lemma base_velocity_mirror (zo : bool) (p : FuzzyPlayer) (x x' y v v' : Q) :
  (0 < surface_width (board p))%Z -> x' == - x ->
  base_velocity (tsk_velocity zo) p x y = Some v ->
  base_velocity (tsk_velocity zo) p x' y = Some v' ->
  v' == - v.
Proof.
  intros Hw Hx. unfold base_velocity.
  assert (Ha : Qabs x' == Qabs x) by (rewrite Hx; apply Qabs_opp).
  rewrite (ltb_compat _ _ _ _ Ha (Qeq_refl dead_x)).
  destruct (ltb_spec (Qabs x) dead_x) as [Hd | Hd].
  - intros E E'. injection E as <-. injection E' as <-. reflexivity.
  - apply tsk_velocity_mirror; [exact Hw | exact Hx | ].
    intros Hz. rewrite Hz in Hd. unfold dead_x in Hd. simpl in Hd. lra.
Qed.




(** ** The concrete scenario *)

Lemma scenario_dead_zone (zo : bool) (rx : Z) (prev : option Q) :
  base_velocity (tsk_velocity zo) (game_player rx prev)
    (Py.float 0.5) (Py.float (Qabs 50)) = Some 0.
Proof. reflexivity. Qed.

Lemma scenario_near (zo : bool) (rx : Z) (prev : option Q) :
  option_map Qred
    (base_velocity (tsk_velocity zo) (game_player rx prev)
       (Py.float 50) (Py.float (Qabs 10))) = Some (-10 # 1).
Proof. destruct zo; vm_compute; reflexivity. Qed.

Lemma scenario_far (zo : bool) (rx : Z) (prev : option Q) :
  option_map Qred
    (base_velocity (tsk_velocity zo) (game_player rx prev)
       (Py.float 5) (Py.float (Qabs 300))) = Some 0.
Proof. destruct zo; vm_compute; reflexivity. Qed.

Lemma option_Qred_value (o : option Q) (q : Q) :
  option_map Qred o = Some q -> exists v, o = Some v /\ v == q.
Proof.
  destruct o as [v | ]; [ | discriminate]. simpl. intros E.
  injection E as <-. exists v. split; [reflexivity | ].
  symmetry. apply Qred_correct.
Qed.

(** Claim C8.  On the 800 by 400 board with paddle width 80 and max speed
    10, wherever the paddle is and whatever [|dy|] was stored before:
    [act 0.5 50] settles on velocity 0; [act 50 10] on -10; and
    [act 5 300] on 0, a magnitude below [VMAX * 0.8 = 8]. *)
Theorem concrete_scenario (zo : bool) (rc : Q -> Z) (rx : Z) (prev : option Q) :
  let p := game_player rx prev in
  (exists p' a, act zo rc p 0.5 50 = Some (p', a) /\ velocity a = 0) /\
  (exists p' a, act zo rc p 50 10 = Some (p', a) /\ velocity a == - (10 # 1)) /\
  (exists p' a, act zo rc p 5 300 = Some (p', a) /\
     velocity a == 0 /\ Qabs (velocity a) < VMAX p * 0.8 /\
     VMAX p * 0.8 == 8).
Proof.
  intros p. split; [ | split].
  - destruct (act_velocity zo rc p 0.5 50 0 (scenario_dead_zone zo rx prev))
      as [p' [a [A Ev]]].
    exists p', a. split; [exact A | ]. rewrite Ev. apply boosted_zero.
  - destruct (option_Qred_value _ _ (scenario_near zo rx prev)) as [v [E Hv]].
    destruct (act_velocity zo rc p 50 10 v E) as [p' [a [A Ev]]].
    exists p', a. split; [exact A | ]. rewrite Ev.
    destruct (boosted_cases p (Py.float 50) (Py.float (Qabs 10)) v) as [B | B];
      rewrite B; [ | exact Hv].
    assert (HV : 0 <= VMAX p) by (vm_compute; discriminate).
    destruct (clamp_spec (VMAX p) (v * boost_gain) HV) as [_ [_ [_ Hlo]]].
    rewrite Hlo.
    + reflexivity.
    + rewrite Hv. vm_compute. discriminate.
  - destruct (option_Qred_value _ _ (scenario_far zo rx prev)) as [v [E Hv]].
    destruct (act_velocity zo rc p 5 300 v E) as [p' [a [A Ev]]].
    exists p', a. split; [exact A | ]. rewrite Ev.
    assert (B : boosted p (Py.float 5) (Py.float (Qabs 300)) v = v).
    { apply boosted_spec. intros [_ [Hnz _]]. contradiction. }
    rewrite B. split; [exact Hv | ]. split; [ | reflexivity].
    rewrite Hv. reflexivity.
Qed.

(** ** Determinism *)

Lemma act_ticks_eq (zo : bool) (rc : Q -> Z) (p : FuzzyPlayer)
    (dx dy dx' dy' : Q) :
  dx == dx' -> dy == dy' -> act zo rc p dx dy = act zo rc p dx' dy'.
Proof.
  intros Hx Hy. unfold act, act_with, Py.float.
  rewrite (Qred_complete dx dx' Hx).
  rewrite (Qred_complete (Qabs dy) (Qabs dy')) by (now rewrite Hy).
  reflexivity.
Qed.

Lemma run_ticks_eq (zo : bool) (rc : Q -> Z) (ticks1 ticks2 : list (Q * Q)) :
  same_ticks ticks1 ticks2 ->
  forall p, run zo rc p ticks1 = run zo rc p ticks2.
Proof.
  induction 1 as [ | [dx dy] [dx' dy'] l l' [Hx Hy] _ IH]; intros p;
    [reflexivity | ].
  simpl in Hx, Hy. simpl. rewrite (act_ticks_eq zo rc p dx dy dx' dy' Hx Hy).
  destruct (act zo rc p dx' dy') as [[p' a] | ]; simpl; [ | reflexivity].
  now rewrite IH.
Qed.

Lemma run_total (zo : bool) (rc : Q -> Z) (ticks : list (Q * Q)) :
  forall p, exists out,
    run zo rc p ticks = Some out /\ length out = length ticks.
Proof.
  induction ticks as [ | [dx dy] ticks IH]; intros p.
  - exists []. split; reflexivity.
  - simpl. destruct (act_total zo rc p dx dy) as [[p' a] E]. rewrite E. simpl.
    destruct (IH p') as [out [Eo Hlen]]. rewrite Eo. simpl.
    exists (a :: out). split; [reflexivity | ]. simpl. now rewrite Hlen.
Qed.

Lemma act_same_setup (zo : bool) (rc : Q -> Z) (p q : FuzzyPlayer) (dx dy : Q) :
  same_setup p q ->
  match act zo rc p dx dy, act zo rc q dx dy with
  | Some (p', a), Some (q', b) => same_setup p' q' /\ velocity a = velocity b
  | _, _ => False
  end.
Proof.
  destruct p as [[rx w ms] b prev], q as [[rx' w' ms'] b' prev'].
  intros [Hb [Hw [Hms Hprev]]]. simpl in Hb, Hw, Hms, Hprev. subst.
  destruct (base_velocity_total zo (mkFuzzyPlayer (mkRacket rx w' ms') b' prev')
              (Py.float dx) (Py.float (Qabs dy))) as [v E].
  rewrite (act_result zo rc _ dx dy v E).
  assert (E' : base_velocity (tsk_velocity zo)
                 (mkFuzzyPlayer (mkRacket rx' w' ms') b' prev')
                 (Py.float dx) (Py.float (Qabs dy)) = Some v) by exact E.
  rewrite (act_result zo rc _ dx dy v E').
  unfold after_act. split; [repeat split | reflexivity].
Qed.

Lemma run_same_setup (zo : bool) (rc : Q -> Z) (ticks : list (Q * Q)) :
  forall p q, same_setup p q ->
    option_map (map velocity) (run zo rc p ticks) =
    option_map (map velocity) (run zo rc q ticks).
Proof.
  induction ticks as [ | [dx dy] ticks IH]; intros p q Hpq; [reflexivity | ].
  simpl. pose proof (act_same_setup zo rc p q dx dy Hpq) as Hact.
  destruct (act zo rc p dx dy) as [[p' a] | ];
    destruct (act zo rc q dx dy) as [[q' b] | ]; try contradiction.
  destruct Hact as [Hs Hv]. simpl. specialize (IH p' q' Hs).
  destruct (run zo rc p' ticks), (run zo rc q' ticks); simpl in *;
    try discriminate; [ | reflexivity].
  injection IH as IH. now rewrite Hv, IH.
Qed.

(** Claim C9.  Two controllers constructed, as the game constructs them,
    from the same board width, board height, paddle width and max speed
    and fed input sequences that are the same numbers produce the same
    list of actions, velocities and move commands alike, one action per
    input; and the velocities do not depend on where the paddles stand. *)
Theorem controller_deterministic (zo : bool) (rc : Q -> Z)
    (w h pw ms : Z) (ticks1 ticks2 : list (Q * Q)) :
  same_ticks ticks1 ticks2 ->
  (exists out,
     run zo rc (PongGame_player w h pw ms) ticks1 = Some out /\
     run zo rc (PongGame_player w h pw ms) ticks2 = Some out /\
     length out = length ticks1) /\
  (forall rx rx',
     option_map (map velocity)
       (run zo rc (FuzzyPlayer_init (mkRacket rx pw ms) (mkBoard w h)) ticks1) =
     option_map (map velocity)
       (run zo rc (FuzzyPlayer_init (mkRacket rx' pw ms) (mkBoard w h)) ticks2)).
Proof.
  intros Hticks. split.
  - destruct (run_total zo rc ticks1 (PongGame_player w h pw ms))
      as [out [E Hlen]].
    exists out. split; [exact E | ]. split; [ | exact Hlen].
    rewrite <- (run_ticks_eq zo rc ticks1 ticks2 Hticks). exact E.
  - intros rx rx'. rewrite <- (run_ticks_eq zo rc ticks1 ticks2 Hticks).
    apply run_same_setup. repeat split.
Qed.

Lemma controller_deterministic_witness :
  same_ticks [(50, 10); (50, 5)] [(100 # 2, 20 # 2); (50, 10 # 2)] /\
  exists out,
    run true rect_trunc (PongGame_player 800 400 80 10)
      [(50, 10); (50, 5)] = Some out /\
    run true rect_trunc (PongGame_player 800 400 80 10)
      [(100 # 2, 20 # 2); (50, 10 # 2)] = Some out /\
    length out = 2%nat.
Proof.
  assert (H1 : same_ticks [(50, 10); (50, 5)]
                 [(100 # 2, 20 # 2); (50, 10 # 2)]).
  { repeat constructor; reflexivity. }
  destruct (controller_deterministic true rect_trunc 800 400 80 10 _ _ H1)
    as [Hout _].
  exact (conj H1 Hout).
Defined.

(** ** The paddle, the other players and the game loop *)

Lemma rect_trunc_stores_integers : stores_integers rect_trunc.
Proof. intros z. unfold rect_trunc. simpl. apply Z.quot_1_r. Qed.

Lemma rect_trunc_stores_in_order : stores_in_order rect_trunc.
Proof.
  intros [n d] [n' d'] Hle. unfold rect_trunc, Qle in *. simpl in *.
  rewrite <- (Z.quot_mul_cancel_r n (Zpos d) (Zpos d')) by lia.
  rewrite <- (Z.quot_mul_cancel_r n' (Zpos d') (Zpos d)) by lia.
  rewrite (Z.mul_comm (Zpos d') (Zpos d)).
  apply Z.quot_le_mono; lia.
Qed.

Lemma Racket_move_delta (rc : Q -> Z) (r : Racket) (x : Q) (b : Board) :
  Racket_move rc r x b =
    mkRacket (rc (inject_Z (rect_x r) + Racket_delta r x b))
      (width r) (max_speed r).
Proof. reflexivity. Qed.

Lemma Racket_delta_cases (r : Racket) (x : Q) (b : Board) :
  (0 <= max_speed r)%Z ->
  let ms := inject_Z (max_speed r) in
  let rx := inject_Z (rect_x r) in
  let d := Racket_delta r x b in
  - ms <= d <= ms /\
  (0 <= d <= x - rx \/ x - rx <= d <= 0) /\
  (d == 0 \/
   (0 <= rx + d /\ rx + inject_Z (width r) + d <= inject_Z (surface_width b))).
Proof.
  intros Hms ms rx d.
  assert (H0 : 0 <= ms).
  { unfold ms. change 0 with (inject_Z 0). now rewrite <- Zle_Qle. }
  subst d. unfold Racket_delta. fold ms rx.
  destruct (ltb_spec ms (x - rx)); simpl;
    (match goal with |- context [Py.ltb ?u (- ms)] =>
       destruct (ltb_spec u (- ms)) end); simpl;
    (match goal with |- context [Py.ltb (rx + ?u) 0] =>
       destruct (ltb_spec (rx + u) 0) end); simpl;
    (match goal with |- context [Py.ltb ?w (rx + ?pw + ?u)] =>
       destruct (ltb_spec w (rx + pw + u)) end); simpl;
    repeat split; try lra.
  all: first [left; lra | right; lra | right; split; lra].
Qed.

Lemma stored_between (rc : Q -> Z) (lo hi : Z) (q : Q) :
  stores_integers rc -> stores_in_order rc ->
  inject_Z lo <= q <= inject_Z hi -> (lo <= rc q <= hi)%Z.
Proof.
  intros Hint Hord [Hlo Hhi]. split.
  - rewrite <- (Hint lo). now apply Hord.
  - rewrite <- (Hint hi). now apply Hord.
Qed.

Lemma inject_Z_le (a b : Z) : (a <= b)%Z -> inject_Z a <= inject_Z b.
Proof. intros. now rewrite <- Zle_Qle. Qed.

(** The paddle moves by at most [max_speed], towards the target and never
    past it. *)
Lemma move_step (rc : Q -> Z) (r : Racket) (x : Q) (b : Board) :
  stores_integers rc -> stores_in_order rc ->
  (0 <= max_speed r)%Z ->
  let r' := Racket_move rc r x b in
  (Z.abs (rect_x r' - rect_x r) <= max_speed r)%Z /\
  ((rect_x r <= rect_x r' <= rc x)%Z \/ (rc x <= rect_x r' <= rect_x r)%Z).
Proof.
  intros Hint Hord Hms r'. subst r'. rewrite Racket_move_delta. simpl.
  destruct (Racket_delta_cases r x b Hms) as [[Hlo Hhi] [Hdir _]].
  set (d := Racket_delta r x b) in *.
  split.
  - assert (rect_x r - max_speed r <= rc (inject_Z (rect_x r) + d)%Q
            <= rect_x r + max_speed r)%Z.
    { apply stored_between; auto.
      unfold Z.sub. rewrite !inject_Z_plus, inject_Z_opp. lra. }
    lia.
  - destruct Hdir as [Hd | Hd]; [left | right].
    + split.
      * rewrite <- (Hint (rect_x r)) at 1. apply Hord. lra.
      * apply Hord. lra.
    + split.
      * apply Hord. lra.
      * rewrite <- (Hint (rect_x r)) at 2. apply Hord. lra.
Qed.

(** A paddle on the board stays on the board. *)
Lemma move_on_board (rc : Q -> Z) (r : Racket) (x : Q) (b : Board) :
  stores_integers rc -> stores_in_order rc ->
  on_board r b ->
  on_board (Racket_move rc r x b) b /\
  width (Racket_move rc r x b) = width r /\
  max_speed (Racket_move rc r x b) = max_speed r.
Proof.
  intros Hint Hord [H0 HW]. split; [ | split; reflexivity].
  rewrite Racket_move_delta. unfold on_board. simpl.
  set (d := Racket_delta r x b).
  assert (Hd : inject_Z 0 <= inject_Z (rect_x r) + d
               <= inject_Z (surface_width b - width r)).
  { unfold Z.sub. rewrite inject_Z_plus, inject_Z_opp.
    pose proof (inject_Z_le _ _ H0) as Q0.
    pose proof (inject_Z_le _ _ HW) as QW. rewrite inject_Z_plus in QW.
    change (inject_Z 0) with 0 in *.
    subst d. unfold Racket_delta.
    set (ms := inject_Z (max_speed r)). set (rx := inject_Z (rect_x r)) in *.
    destruct (ltb_spec ms (x - rx)); simpl;
      (match goal with |- context [Py.ltb ?u (- ms)] =>
         destruct (ltb_spec u (- ms)) end); simpl;
      (match goal with |- context [Py.ltb (rx + ?u) 0] =>
         destruct (ltb_spec (rx + u) 0) end); simpl;
      (match goal with |- context [Py.ltb ?w (rx + ?pw + ?u)] =>
         destruct (ltb_spec w (rx + pw + u)) end); simpl;
      split; lra. }
  pose proof (stored_between rc _ _ _ Hint Hord Hd). lia.
Qed.

Lemma stored_exact (rc : Q -> Z) (z : Z) (q : Q) :
  stores_integers rc -> stores_in_order rc -> q == inject_Z z -> rc q = z.
Proof.
  intros Hint Hord E.
  assert (z <= rc q <= z)%Z by (apply stored_between; auto; lra). lia.
Qed.

Ltac delta_cases ms rx x :=
  destruct (ltb_spec ms (x - rx)); simpl;
  (match goal with |- context [Py.ltb ?u (- ms)] =>
     destruct (ltb_spec u (- ms)) end); simpl;
  (match goal with |- context [Py.ltb (rx + ?u) 0] =>
     destruct (ltb_spec (rx + u) 0) end); simpl;
  (match goal with |- context [Py.ltb ?w (rx + ?pw + ?u)] =>
     destruct (ltb_spec w (rx + pw + u)) end); simpl.

Lemma Racket_delta_value (r : Racket) (x : Q) (b : Board) :
  let ms := inject_Z (max_speed r) in
  let rx := inject_Z (rect_x r) in
  let pw := inject_Z (width r) in
  let bw := inject_Z (surface_width b) in
  let d := Racket_delta r x b in
  0 <= ms ->
  (- ms <= x - rx <= ms -> 0 <= x -> x + pw <= bw -> d == x - rx) /\
  (ms <= x - rx -> 0 <= rx + ms -> rx + pw + ms <= bw -> d == ms) /\
  (x - rx <= - ms -> 0 <= rx - ms -> rx + pw - ms <= bw -> d == - ms) /\
  (ms <= x - rx -> bw < rx + pw + ms -> d == 0) /\
  (x - rx <= - ms -> rx - ms < 0 -> d == 0).
Proof.
  intros ms rx pw bw d Hms. subst d. unfold Racket_delta.
  fold ms rx pw bw.
  delta_cases ms rx x; repeat split; intros; lra.
Qed.

(** An integer target within reach and on the board is reached exactly. *)
Lemma move_arrives (rc : Q -> Z) (r : Racket) (z : Z) (b : Board) :
  stores_integers rc -> stores_in_order rc ->
  (Z.abs (z - rect_x r) <= max_speed r)%Z ->
  (0 <= z)%Z -> (z + width r <= surface_width b)%Z ->
  rect_x (Racket_move rc r (inject_Z z) b) = z.
Proof.
  intros Hint Hord Habs H0 HW. rewrite Racket_move_delta. simpl.
  apply stored_exact; auto.
  assert (Hms : 0 <= inject_Z (max_speed r)).
  { change 0 with (inject_Z 0). apply inject_Z_le. lia. }
  destruct (Racket_delta_value r (inject_Z z) b Hms) as [Hnear _].
  rewrite Hnear; [ring | | | ].
  - assert (A : (- max_speed r <= z - rect_x r <= max_speed r)%Z) by lia.
    destruct A as [A1 A2]. apply inject_Z_le in A1, A2.
    unfold Z.sub in *. rewrite ?inject_Z_plus, ?inject_Z_opp in *. lra.
  - change 0 with (inject_Z 0). now apply inject_Z_le.
  - rewrite <- inject_Z_plus. now apply inject_Z_le.
Qed.

(** A target at least [max_speed] away moves the paddle by exactly
    [max_speed], provided that step stays on the board. *)
Lemma move_full_step (rc : Q -> Z) (r : Racket) (x : Q) (b : Board) :
  stores_integers rc -> stores_in_order rc ->
  (0 <= max_speed r)%Z ->
  (inject_Z (rect_x r + max_speed r) <= x ->
   (0 <= rect_x r + max_speed r)%Z ->
   (rect_x r + width r + max_speed r <= surface_width b)%Z ->
   rect_x (Racket_move rc r x b) = (rect_x r + max_speed r)%Z) /\
  (x <= inject_Z (rect_x r - max_speed r) ->
   (0 <= rect_x r - max_speed r)%Z ->
   (rect_x r + width r - max_speed r <= surface_width b)%Z ->
   rect_x (Racket_move rc r x b) = (rect_x r - max_speed r)%Z).
Proof.
  intros Hint Hord Hms0.
  assert (Hms : 0 <= inject_Z (max_speed r)).
  { change 0 with (inject_Z 0). now apply inject_Z_le. }
  destruct (Racket_delta_value r x b Hms) as [_ [Hr [Hl _]]].
  split; intros Hx H0 HW; rewrite Racket_move_delta; simpl;
    apply stored_exact; auto;
    apply inject_Z_le in H0, HW;
    unfold Z.sub in *; rewrite ?inject_Z_plus, ?inject_Z_opp in *;
    change (inject_Z 0) with 0 in *.
  - rewrite Hr; [ring | lra | lra | lra].
  - rewrite Hl; [ring | lra | lra | lra].
Qed.

(** A step that would cross the board's edge is dropped whole: the paddle
    stays where it is, short of the wall. *)
Lemma move_blocked (rc : Q -> Z) (r : Racket) (x : Q) (b : Board) :
  stores_integers rc -> stores_in_order rc ->
  (0 <= max_speed r)%Z ->
  (inject_Z (rect_x r + max_speed r) <= x ->
   (surface_width b < rect_x r + width r + max_speed r)%Z ->
   rect_x (Racket_move rc r x b) = rect_x r) /\
  (x <= inject_Z (rect_x r - max_speed r) ->
   (rect_x r - max_speed r < 0)%Z ->
   rect_x (Racket_move rc r x b) = rect_x r).
Proof.
  intros Hint Hord Hms0.
  assert (Hms : 0 <= inject_Z (max_speed r)).
  { change 0 with (inject_Z 0). now apply inject_Z_le. }
  destruct (Racket_delta_value r x b Hms) as [_ [_ [_ [Hr Hl]]]].
  split; intros Hx Hout; rewrite Racket_move_delta; simpl;
    apply stored_exact; auto;
    rewrite Zlt_Qlt in Hout;
    unfold Z.sub in *; rewrite ?inject_Z_plus, ?inject_Z_opp in *;
    change (inject_Z 0) with 0 in *.
  - rewrite Hr; [ring | lra | lra].
  - rewrite Hl; [ring | lra | lra].
Qed.

Lemma NaiveOponent_act_closer (rc : Q -> Z) (r : Racket) (b : Board)
    (z xd yd : Z) :
  stores_integers rc -> stores_in_order rc ->
  (0 <= max_speed r)%Z -> on_board r b ->
  (0 <= z)%Z -> (z + width r <= surface_width b)%Z ->
  let r' := NaiveOponent_act rc r b z xd yd in
  Z.abs (z - rect_x r') = Z.max 0 (Z.abs (z - rect_x r) - max_speed r) /\
  on_board r' b /\ width r' = width r /\ max_speed r' = max_speed r.
Proof.
  intros Hint Hord Hms [H0 HW] Hz0 HzW r'. subst r'. unfold NaiveOponent_act.
  split; [ | apply move_on_board; auto; split; auto].
  destruct (Z_le_gt_dec (Z.abs (z - rect_x r)) (max_speed r)) as [Hn | Hf].
  - rewrite move_arrives by auto. lia.
  - destruct (move_full_step rc r (inject_Z z) b Hint Hord Hms)
      as [Hr Hl].
    destruct (Z_le_gt_dec (rect_x r) z) as [Hright | Hleft].
    + rewrite Hr; [lia | apply inject_Z_le; lia | lia | lia].
    + rewrite Hl; [lia | apply inject_Z_le; lia | lia | lia].
Qed.

(** Property X6.  Tracking a ball that stays at one x: the distance of the
    paddle's left edge to the ball's centre shrinks by [max_speed] per
    call until it is zero. *)
Theorem NaiveOponent_track_reaches (rc : Q -> Z) (b : Board) (z : Z)
    (diffs : list (Z * Z)) (r : Racket) :
  stores_integers rc -> stores_in_order rc ->
  (0 <= max_speed r)%Z -> on_board r b ->
  (0 <= z)%Z -> (z + width r <= surface_width b)%Z ->
  let r' := NaiveOponent_track rc r b z diffs in
  Z.abs (z - rect_x r') =
    Z.max 0 (Z.abs (z - rect_x r) - Z.of_nat (length diffs) * max_speed r) /\
  (Z.abs (z - rect_x r) <= Z.of_nat (length diffs) * max_speed r ->
   rect_x r' = z)%Z.
Proof.
  intros Hint Hord. revert r.
  assert (Hdist : forall r, (0 <= max_speed r)%Z -> on_board r b ->
            (0 <= z)%Z -> (z + width r <= surface_width b)%Z ->
            Z.abs (z - rect_x (NaiveOponent_track rc r b z diffs)) =
            Z.max 0 (Z.abs (z - rect_x r)
                     - Z.of_nat (length diffs) * max_speed r)).
  { induction diffs as [ | [xd yd] diffs IH]; intros r Hms Hb Hz0 HzW.
    - simpl. lia.
    - cbn [NaiveOponent_track length].
      destruct (NaiveOponent_act_closer rc r b z xd yd Hint Hord Hms Hb Hz0 HzW)
        as [Hd [Hb' [Hw' Hm']]].
      rewrite IH; rewrite ?Hw', ?Hm'; auto.
      rewrite Hd. rewrite Nat2Z.inj_succ. nia. }
  intros r Hms Hb Hz0 HzW r'. subst r'.
  pose proof (Hdist r Hms Hb Hz0 HzW) as Hd.
  split; [exact Hd | ]. intros Hn. lia.
Qed.

(** Property X7.  The arrow keys of a human player: LEFT moves the paddle
    left by [max_speed] and stops exactly at the wall; RIGHT moves it
    right by [max_speed] only when the whole step fits, so the paddle can
    stay short of the right wall. *)
Theorem handle_keys_moves (rc : Q -> Z) (r : Racket) (b : Board) :
  stores_integers rc -> stores_in_order rc ->
  (0 <= max_speed r <= width r)%Z -> on_board r b ->
  rect_x (handle_keys rc r b K_LEFT) = Z.max 0 (rect_x r - max_speed r) /\
  rect_x (handle_keys rc r b K_RIGHT) =
    (if (rect_x r + width r + max_speed r <=? surface_width b)%Z
     then rect_x r + max_speed r else rect_x r)%Z /\
  handle_keys rc r b K_NONE = r.
Proof.
  intros Hint Hord [Hms Hmw] [H0 HW]. cbn [handle_keys].
  unfold HumanPlayer_move_manual. split; [ | split; [ | reflexivity]].
  - destruct (Z_le_gt_dec (max_speed r) (rect_x r)) as [Hfar | Hnear].
    + destruct (move_full_step rc r (inject_Z 0) b Hint Hord Hms)
        as [_ Hl].
      rewrite Hl; [lia | apply inject_Z_le; lia | lia | lia].
    + rewrite move_arrives; auto; lia.
  - destruct (Z.leb_spec (rect_x r + width r + max_speed r) (surface_width b))
      as [Hfit | Hout].
    + destruct (move_full_step rc r (inject_Z (surface_width b)) b
                  Hint Hord Hms) as [Hr _].
      apply Hr; [apply inject_Z_le; lia | lia | lia].
    + destruct (move_blocked rc r (inject_Z (surface_width b)) b
                  Hint Hord Hms) as [Hr _].
      apply Hr; [apply inject_Z_le; lia | lia].
Qed.

Lemma act_after (zo : bool) (rc : Q -> Z) (p : FuzzyPlayer) (dx dy : Q) :
  exists v,
    (Qabs dx < dead_x -> v = 0) /\
    act zo rc p dx dy = Some (after_act rc p (Py.float (Qabs dy)) v).
Proof.
  destruct (base_velocity_total zo p (Py.float dx) (Py.float (Qabs dy)))
    as [v0 E].
  exists (boosted p (Py.float dx) (Py.float (Qabs dy)) v0).
  split; [ | exact (act_result zo rc p dx dy v0 E)].
  intros Hd. revert E. unfold base_velocity.
  rewrite (ltb_compat _ (Qabs dx) _ dead_x (abs_float_eq dx) (Qeq_refl _)).
  destruct (ltb_spec (Qabs dx) dead_x); [ | contradiction].
  intros E. injection E as <-. apply boosted_zero.
Qed.

Lemma Racket_delta_zero (r : Racket) (x : Q) (b : Board) :
  (0 <= max_speed r)%Z -> x == inject_Z (rect_x r) ->
  Racket_delta r x b == 0.
Proof.
  intros Hms Hx.
  assert (H0 : 0 <= inject_Z (max_speed r)).
  { change 0 with (inject_Z 0). now apply inject_Z_le. }
  unfold Racket_delta.
  set (ms := inject_Z (max_speed r)) in *. set (rx := inject_Z (rect_x r)) in *.
  delta_cases ms rx x; lra.
Qed.

(** One call of [act] keeps the paddle on the board and changes nothing of
    the player but the paddle's position and the remembered [|dy|]. *)
Lemma act_on_board (zo : bool) (rc : Q -> Z)
    (p : FuzzyPlayer) (dx dy : Q) :
  stores_integers rc -> stores_in_order rc ->
  on_board (racket p) (board p) ->
  exists p' a,
    act zo rc p dx dy = Some (p', a) /\
    on_board (racket p') (board p') /\
    board p' = board p /\
    width (racket p') = width (racket p) /\
    max_speed (racket p') = max_speed (racket p) /\
    prev_y_abs p' = Some (Py.float (Qabs dy)).
Proof.
  intros Hint Hord Hb. destruct (act_after zo rc p dx dy) as [v [_ E]].
  rewrite E. unfold after_act. do 2 eexists. split; [reflexivity | ].
  cbn [move racket board prev_y_abs].
  destruct (move_on_board rc (racket p)
              (inject_Z (rect_x (racket p)) + v) (board p) Hint Hord Hb)
    as [Hb' [Hw Hm]].
  repeat split; auto; apply Hb'.
Qed.

(** Property X9.  The paddle's displacement in one call of [act] is at
    most [max_speed] and never against the velocity [act] settled on; in
    the dead zone the paddle does not move. *)
Theorem act_paddle_step (zo : bool) (rc : Q -> Z)
    (p : FuzzyPlayer) (dx dy : Q) :
  stores_integers rc -> stores_in_order rc ->
  (0 <= max_speed (racket p))%Z ->
  exists p' a,
    act zo rc p dx dy = Some (p', a) /\
    (Z.abs (rect_x (racket p') - rect_x (racket p)) <= max_speed (racket p))%Z /\
    (0 <= velocity a -> (rect_x (racket p) <= rect_x (racket p'))%Z) /\
    (velocity a <= 0 -> (rect_x (racket p') <= rect_x (racket p))%Z) /\
    (Qabs dx < dead_x -> rect_x (racket p') = rect_x (racket p)).
Proof.
  intros Hint Hord Hms. destruct (act_after zo rc p dx dy) as [v [Hdead E]].
  rewrite E. unfold after_act. do 2 eexists. split; [reflexivity | ].
  cbn [move racket board prev_y_abs velocity].
  set (x := inject_Z (rect_x (racket p)) + v).
  destruct (move_step rc (racket p) x (board p) Hint Hord Hms)
    as [Habs _].
  split; [exact Habs | ].
  rewrite Racket_move_delta. cbn [rect_x].
  destruct (Racket_delta_cases (racket p) x (board p) Hms) as [_ [Hdir _]].
  set (d := Racket_delta (racket p) x (board p)) in *.
  assert (Hxv : x - inject_Z (rect_x (racket p)) == v) by (unfold x; ring).
  rewrite Hxv in Hdir.
  split; [ | split].
  - intros Hv. rewrite <- (Hint (rect_x (racket p))) at 1. apply Hord.
    destruct Hdir; lra.
  - intros Hv. rewrite <- (Hint (rect_x (racket p))) at 2. apply Hord.
    destruct Hdir; lra.
  - intros Hd. apply stored_exact; auto.
    assert (Hz : d == 0).
    { apply Racket_delta_zero; [exact Hms | ].
      unfold x. rewrite (Hdead Hd). ring. }
    rewrite Hz. ring.
Qed.

(** Property X10.  Over any number of ticks of the game loop the calls of
    [act] return and leave the paddle on the board, with its width, its
    max speed and the board unchanged. *)
Theorem run_state_on_board (zo : bool) (rc : Q -> Z) (ticks : list (Q * Q)) :
  stores_integers rc -> stores_in_order rc ->
  forall p, on_board (racket p) (board p) ->
  exists p',
    run_state zo rc p ticks = Some p' /\
    on_board (racket p') (board p') /\
    board p' = board p /\
    width (racket p') = width (racket p) /\
    max_speed (racket p') = max_speed (racket p).
Proof.
  intros Hint Hord. induction ticks as [ | [dx dy] ticks IH]; intros p Hb.
  - exists p. repeat split; auto; apply Hb.
  - cbn [run_state].
    destruct (act_on_board zo rc p dx dy Hint Hord Hb)
      as [p1 [a [E [Hb1 [Eb [Ew [Em _]]]]]]].
    rewrite E. cbn [Py.bind fst].
    destruct (IH p1 Hb1) as [p' [E' [Hb' [Eb' [Ew' Em']]]]].
    exists p'. split; [exact E' | ]. split; [exact Hb' | ].
    repeat split; congruence.
Qed.

Lemma trimf1_zero_outside (a b c u : Q) :
  a < b -> b < c -> u <= a \/ c <= u -> Fuzz.trimf1 a b c u == 0.
Proof.
  intros Hab Hbc Hu. unfold Fuzz.trimf1.
  repeat (py_case; simpl; try (exfalso; lra)); try reflexivity.
  all: destruct Hu; exfalso; lra.
Qed.

Lemma trapmf1_plateau (a b c d u : Q) :
  a <= b -> c <= d -> b <= u <= c -> Fuzz.trapmf1 a b c d u == 1.
Proof.
  intros Hab Hcd [Hb Hc]. unfold Fuzz.trapmf1, Fuzz.trimf1.
  repeat (py_case; simpl; try (exfalso; lra)); try reflexivity.
Qed.

Lemma trapmf1_zero_low (a b c d u : Q) :
  a < b -> b <= c -> u <= a -> Fuzz.trapmf1 a b c d u == 0.
Proof.
  intros Hab Hbc Hu. unfold Fuzz.trapmf1, Fuzz.trimf1.
  repeat (py_case; simpl; try (exfalso; lra)); try reflexivity.
Qed.

Lemma trapmf1_zero_high (a b c d u : Q) :
  b <= c -> c < d -> d <= u -> Fuzz.trapmf1 a b c d u == 0.
Proof.
  intros Hbc Hcd Hu. unfold Fuzz.trapmf1, Fuzz.trimf1.
  repeat (py_case; simpl; try (exfalso; lra)); try reflexivity.
Qed.

Lemma trapmf1_falling_le (a b c d u u0 k : Q) :
  b <= c -> c < u0 -> u0 <= u -> u0 <= d -> 0 <= k ->
  d - u0 <= k * (d - c) ->
  Fuzz.trapmf1 a b c d u <= k.
Proof.
  intros Hbc Hc Hu Hd Hk Hslope. unfold Fuzz.trapmf1, Fuzz.trimf1.
  repeat (py_case; simpl; try (exfalso; lra)); try lra.
  all: apply Qle_shift_div_r; lra.
Qed.

Lemma y_weight_shape_range (p : FuzzyPlayer) (u : Q) :
  0 < H p -> 0 <= y_weight_shape p u <= 0.9.
Proof.
  intros Hh. unfold y_weight_shape.
  pose proof (y_shape_range p Y.near u) as Rn.
  pose proof (y_shape_range p Y.mid u) as Rm.
  pose proof (y_shape_range p Y.far u) as Rf.
  split; [lra | ]. revert Rn Rm Rf. simpl. generalize (H p) Hh.
  intros h Hh' Rn Rm Rf.
  destruct (Qlt_le_dec (0.48 * h) u) as [Hu | Hu].
  - assert (Fuzz.trapmf1 0 0 (0.30 * h) (0.55 * h) u <= 0.28).
    { apply (trapmf1_falling_le _ _ _ _ _ (0.48 * h)); lra. }
    lra.
  - rewrite (trimf1_zero_outside (0.48 * h) (0.68 * h) (0.85 * h) u) by lra.
    rewrite (trapmf1_zero_low (0.78 * h) (0.92 * h) h h u) by lra.
    lra.
Qed.

Lemma lerp_combine3 (x0 x1 x k1 k2 k3 a0 a1 b0 b1 c0 c1 : Q) :
  x0 < x1 ->
  k1 * Fuzz.lerp x0 a0 x1 a1 x + k2 * Fuzz.lerp x0 b0 x1 b1 x +
  k3 * Fuzz.lerp x0 c0 x1 c1 x ==
  Fuzz.lerp x0 (k1 * a0 + k2 * b0 + k3 * c0) x1
    (k1 * a1 + k2 * b1 + k3 * c1) x.
Proof. intros Hlt. unfold Fuzz.lerp. field. lra. Qed.

Lemma edge_weight_range (zo : bool) (p : FuzzyPlayer) (y_abs : Q) :
  (0 < surface_height (board p))%Z -> 0 <= edge_weight zo p y_abs <= 0.9.
Proof.
  intros Hh. pose proof (H_pos p Hh) as HH.
  unfold edge_weight. rewrite !mf_y_map_sampled by exact Hh.
  destruct (sampled_cases 0 (H p) (y_cells p) HH zo y_abs)
    as [[_ E] | [[_ E] | [_ [i [_ [Hlt [_ [_ [Hseg E]]]]]]]]].
  - rewrite !E. destruct zo; [lra | ]. apply (y_weight_shape_range p _ HH).
  - rewrite !E. destruct zo; [lra | ]. apply (y_weight_shape_range p _ HH).
  - rewrite !E. rewrite lerp_combine3 by exact Hlt.
    apply lerp_bounds; auto; apply (y_weight_shape_range p _ HH).
Qed.

(** The horizontal correction is at most [0.9 * 0.25 = 0.225] of the paddle
    width, so the corrected offset stays within that distance of the raw
    one. *)
Lemma edge_shift_bound (zo : bool) (p : FuzzyPlayer) (y_abs x_val : Q) :
  (0 <= width (racket p))%Z ->
  (0 < surface_height (board p))%Z ->
  Qabs (edge_shift zo p y_abs x_val) <= 0.225 * PW p /\
  Qabs (x_edge_of zo p x_val y_abs - x_val) <= 0.225 * PW p.
Proof.
  intros Hpw Hh. pose proof (PW_nonneg p Hpw) as HP.
  pose proof (edge_weight_range zo p y_abs Hh) as [Hw0 Hw1].
  assert (Hm : 0 <= edge_weight zo p y_abs * (0.25 * PW p))
    by (apply Qmult_le_0_compat; lra).
  assert (Hle : edge_weight zo p y_abs * (0.25 * PW p) <= 0.225 * PW p).
  { assert (0 <= (0.9 - edge_weight zo p y_abs) * (0.25 * PW p))
      by (apply Qmult_le_0_compat; lra). lra. }
  assert (Habs : Qabs (edge_shift zo p y_abs x_val) <= 0.225 * PW p).
  { destruct (copysign_cases _ x_val Hm) as [Hneg Hpos].
    fold (edge_shift zo p y_abs x_val) in Hneg, Hpos.
    destruct (Qlt_le_dec x_val 0) as [Hx | Hx].
    - rewrite (Hneg Hx), Qabs_opp, Qabs_pos; assumption.
    - rewrite (Hpos Hx), Qabs_pos; assumption. }
  split; [exact Habs | ].
  unfold x_edge_of.
  setoid_replace (x_val - edge_shift zo p y_abs x_val - x_val)
    with (- edge_shift zo p y_abs x_val) by ring.
  now rewrite Qabs_opp.
Qed.

Lemma y_shape_sum_range (p : FuzzyPlayer) (u : Q) :
  0 < H p -> 0 <= y_shape_sum p u <= 2.
Proof.
  intros Hh. unfold y_shape_sum.
  pose proof (y_shape_range p Y.near u) as Rn.
  pose proof (y_shape_range p Y.mid u) as Rm.
  pose proof (y_shape_range p Y.far u) as Rf.
  split; [lra | ]. revert Rn Rm Rf. simpl. generalize (H p) Hh.
  intros h Hh' Rn Rm Rf.
  destruct (Qlt_le_dec u (0.78 * h)) as [Hu | Hu].
  - rewrite (trapmf1_zero_low (0.78 * h) (0.92 * h) h h u) by lra. lra.
  - rewrite (trapmf1_zero_high 0 0 (0.30 * h) (0.55 * h) u) by lra. lra.
Qed.

Lemma y_shape_sum_pos (p : FuzzyPlayer) (u : Q) :
  0 < H p -> 0 <= u <= H p -> 0 < y_shape_sum p u.
Proof.
  intros Hh Hu. unfold y_shape_sum.
  pose proof (y_shape_range p Y.near u) as Rn.
  pose proof (y_shape_range p Y.mid u) as Rm.
  pose proof (y_shape_range p Y.far u) as Rf.
  revert Rn Rm Rf Hu. simpl. generalize (H p) Hh.
  intros h Hh' Rn Rm Rf Hu.
  destruct (Qlt_le_dec u (0.55 * h)) as [C1 | C1].
  { assert (0 < Fuzz.trapmf1 0 0 (0.30 * h) (0.55 * h) u)
      by (apply trapmf1_pos_low; lra). lra. }
  destruct (Qlt_le_dec u (0.85 * h)) as [C2 | C2].
  { assert (0 < Fuzz.trimf1 (0.48 * h) (0.68 * h) (0.85 * h) u)
      by (apply trimf1_pos; lra). lra. }
  assert (0 < Fuzz.trapmf1 (0.78 * h) (0.92 * h) h h u)
    by (apply trapmf1_pos_high; lra). lra.
Qed.

(** Property X11.  For every vertical distance within the board each of
    the three vertical degrees is in [0, 1], and their sum is positive and
    at most 2: some vertical label is always active. *)
Theorem mf_y_degrees_and_sum (zo : bool) (p : FuzzyPlayer) (y : Q) :
  (0 < surface_height (board p))%Z ->
  0 <= y <= H p ->
  (forall n, 0 <= mf_y_map zo p y n <= 1) /\
  0 < mf_y_sum zo p y <= 2.
Proof.
  intros Hh Hy. split; [intros n; now apply mf_y_map_range | ].
  pose proof (H_pos p Hh) as HH.
  unfold mf_y_sum. rewrite !mf_y_map_sampled by exact Hh.
  destruct (sampled_cases 0 (H p) (y_cells p) HH zo y)
    as [[Hlo _] | [[Hhi _] | [_ [i [_ [Hlt [Hga [Hgb [Hseg E]]]]]]]]];
    [lra | lra | ].
  rewrite !E, !lerp_add by exact Hlt.
  set (g := grid_point _ _) in *.
  fold (y_shape_sum p (g i)). fold (y_shape_sum p (g (S i))).
  split.
  - apply lerp_pos; auto; apply y_shape_sum_pos; auto; lra.
  - apply (lerp_bounds _ _ _ _ _ 0 2); auto; apply y_shape_sum_range; auto.
Qed.

Lemma sampled_const_near (zo : bool) (a b : Q) (m : nat) (f : Q -> Q)
    (x k : Q) :
  a < b -> a <= x <= b ->
  (forall u, a <= u <= b ->
     x - (b - a) / inject_Z (Z.of_nat (S m)) <= u
       <= x + (b - a) / inject_Z (Z.of_nat (S m)) ->
     f u == k) ->
  sampled zo a b m f x == k.
Proof.
  intros Hab Hx Hf.
  destruct (sampled_cases a b m Hab zo x)
    as [[Hlo _] | [[Hhi _] | [_ [i [_ [Hlt [Hga [Hgb [Hseg E]]]]]]]]];
    [lra | lra | ].
  rewrite E.
  pose proof (grid_point_step a ((b - a) / inject_Z (Z.of_nat (S m))) i)
    as Hstep.
  pose proof (grid_step_pos a b m Hab) as Hpos.
  set (g := grid_point _ _) in *.
  assert (F0 : f (g i) == k) by (apply Hf; lra).
  assert (F1 : f (g (S i)) == k) by (apply Hf; lra).
  assert (k <= Fuzz.lerp (g i) (f (g i)) (g (S i)) (f (g (S i))) x <= k)
    by (apply lerp_bounds; auto; lra).
  lra.
Qed.

Lemma sampled_outside (zo : bool) (a b : Q) (m : nat) (f : Q -> Q) (x : Q) :
  a < b ->
  (x < a \/ b < x -> zo = true -> sampled zo a b m f x = 0) /\
  (x < a -> zo = false -> forall k,
     (forall u, u == a -> f u == k) -> sampled zo a b m f x == k) /\
  (b < x -> zo = false -> forall k,
     (forall u, u == b -> f u == k) -> sampled zo a b m f x == k).
Proof.
  intros Hab.
  pose proof (linspace_shape a b m Hab) as HS. cbv zeta in HS.
  destruct HS as [_ [_ [Hg0 Hgm]]].
  destruct (sampled_cases a b m Hab zo x)
    as [[Hlo E] | [[Hhi E] | [Hin _]]].
  - split; [intros _ ->; apply E | ].
    split; [ | intros; exfalso; lra].
    intros _ -> k Hk. rewrite E. now apply Hk.
  - split; [intros _ ->; apply E | ].
    split; [intros; exfalso; lra | ].
    intros _ -> k Hk. rewrite E. now apply Hk.
  - split; [intros [Hx | Hx]; exfalso; lra | ].
    split; intros; exfalso; lra.
Qed.

Lemma x_step_one (p : FuzzyPlayer) :
  (0 < surface_width (board p))%Z ->
  (W p / 2 - - W p / 2) / inject_Z (Z.of_nat (S (x_cells p))) == 1.
Proof.
  intros Hw. pose proof (W_pos p Hw) as HW. unfold x_cells.
  replace (S (Z.to_nat (surface_width (board p)) - 1))
    with (Z.to_nat (surface_width (board p))) by lia.
  rewrite Z2Nat.id by lia. fold (W p). field. lra.
Qed.

Lemma mf_x_const (zo : bool) (p : FuzzyPlayer) (n : X.label) (x k : Q) :
  (0 < surface_width (board p))%Z ->
  - span p <= x <= span p ->
  (forall u, - span p <= u <= span p -> x - 1 <= u <= x + 1 ->
     x_shape p n u == k) ->
  mf_x_map zo p x n == k.
Proof.
  intros Hw Hx Hf. pose proof (W_pos p Hw) as HW.
  rewrite mf_x_map_sampled by exact Hw.
  assert (Hs : forall u, (- span p <= u <= span p) <->
                         (- W p / 2 <= u <= W p / 2)).
  { intros u. unfold span. rewrite !half_eq. split; intros; lra. }
  apply sampled_const_near.
  - rewrite !half_eq. lra.
  - now apply Hs.
  - intros u Hu Hnear. rewrite (x_step_one p Hw) in Hnear.
    apply Hf; [now apply Hs | exact Hnear].
Qed.

Lemma mf_x_outside (zo : bool) (p : FuzzyPlayer) (n : X.label) (x : Q) :
  (0 < surface_width (board p))%Z ->
  (x < - span p \/ span p < x -> zo = true -> mf_x_map zo p x n = 0) /\
  (span p < x -> zo = false -> forall k,
     (forall u, u == span p -> x_shape p n u == k) ->
     mf_x_map zo p x n == k).
Proof.
  intros Hw. pose proof (W_pos p Hw) as HW.
  rewrite mf_x_map_sampled by exact Hw.
  assert (Hab : - W p / 2 < W p / 2) by (rewrite !half_eq; lra).
  destruct (sampled_outside zo _ _ (x_cells p) (x_shape p n) x Hab)
    as [Ht [_ Hf]].
  split.
  - intros Hx. apply Ht. unfold span in Hx. rewrite !half_eq in *.
    destruct Hx; [left | right]; lra.
  - intros Hx Hzo k Hk. apply (Hf Hx Hzo). intros u Hu. apply Hk.
    exact Hu.
Qed.

Lemma gated_nonneg (w : Q) : 0 <= gated w.
Proof. unfold gated. destruct (ltb_spec 0 w); lra. Qed.

Lemma gated_zero (w : Q) : w <= 0 -> gated w = 0.
Proof. intros Hw. unfold gated. destruct (ltb_spec 0 w); [lra | reflexivity]. Qed.

Lemma gated_min_zero (w y : Q) : w == 0 -> gated (Qmin w y) = 0.
Proof.
  intros Hw. apply gated_zero. rewrite Hw. apply Q.le_min_l.
Qed.

Lemma tsk_aggregate_pulls (zo : bool) (p : FuzzyPlayer) (xe ya : Q) :
  let x := mf_x_map zo p xe in
  let y := mf_y_map zo p ya in
  let '(lf, lm, ld) := left_pull x y in
  let '(rf, rm, rd) := right_pull x y in
  let d := lf + lm + ld + rf + rm + rd + gated (x X.center) in
  let n := (rf + 0.9 * rm + 0.7 * rd - lf - 0.9 * lm - 0.7 * ld) * VMAX p in
  exists v,
    tsk_aggregate zo p xe ya = Some v /\
    (d <= 1 # 1000000000 -> v = 0) /\
    (1 # 1000000000 < d -> v == n / d).
Proof.
  intros x y. unfold left_pull, right_pull. cbv zeta.
  destruct (tsk_aggregate_spec zo p xe ya) as [v [E [Hz Hq]]].
  destruct (firing_sums (VMAX p) (spec_rule_base x y)) as [En Ed].
  fold x y in Hz, Hq. rewrite Ed in Hz, Hq. rewrite En in Hq.
  simpl in Hz, Hq.
  exists v. split; [exact E | ]. split.
  - intros Hd. apply Hz. lra.
  - intros Hd. rewrite Hq by lra. field. lra.
Qed.

Lemma VMAX_small (p : FuzzyPlayer) : Qabs (VMAX p) < 0.10 -> VMAX p == 0.
Proof.
  unfold VMAX. generalize (max_speed (racket p)). intros z Hz.
  destruct (Z.eq_dec z 0) as [-> | Hnz]; [reflexivity | exfalso].
  destruct (Z_le_gt_dec 1 z).
  - assert (1 <= inject_Z z) by (change 1 with (inject_Z 1); apply inject_Z_le; lia).
    rewrite Qabs_pos in Hz by lra. lra.
  - assert (inject_Z z <= - (1)).
    { change (- (1)) with (inject_Z (-1)). apply inject_Z_le. lia. }
    rewrite Qabs_neg in Hz by lra. lra.
Qed.

(** Zones of the x-degrees. *)
Lemma aggregate_left_zone (zo : bool) (p : FuzzyPlayer) (xe ya v : Q) :
  0 <= VMAX p ->
  mf_x_map zo p xe X.far_right == 0 -> mf_x_map zo p xe X.right == 0 ->
  mf_x_map zo p xe X.center == 0 ->
  tsk_aggregate zo p xe ya = Some v ->
  v = 0 \/ - VMAX p <= v <= - (0.7 * VMAX p).
Proof.
  intros HV Hfr Hr Hc E.
  pose proof (tsk_aggregate_pulls zo p xe ya) as HP. cbv zeta in HP.
  unfold left_pull, right_pull in HP.
  destruct HP as [v' [E' [Hz Hq]]]. rewrite E in E'. injection E' as <-.
  rewrite (gated_zero (mf_x_map zo p xe X.far_right)) in * by lra.
  rewrite (gated_zero (mf_x_map zo p xe X.center)) in * by lra.
  rewrite !(gated_min_zero _ _ Hr) in *.
  set (lf := gated (mf_x_map zo p xe X.far_left) +
             gated (Qmin (mf_x_map zo p xe X.left) (mf_y_map zo p ya Y.near))) in *.
  set (lm := gated (Qmin (mf_x_map zo p xe X.left) (mf_y_map zo p ya Y.mid))) in *.
  set (ld := gated (Qmin (mf_x_map zo p xe X.left) (mf_y_map zo p ya Y.far))) in *.
  assert (Hlf : 0 <= lf) by
    (unfold lf; pose proof (gated_nonneg (mf_x_map zo p xe X.far_left));
     pose proof (gated_nonneg (Qmin (mf_x_map zo p xe X.left)
                                 (mf_y_map zo p ya Y.near))); lra).
  assert (Hlm : 0 <= lm) by apply gated_nonneg.
  assert (Hld : 0 <= ld) by apply gated_nonneg.
  destruct (Qlt_le_dec (1 # 1000000000) (lf + lm + ld + (0 + 0) + 0 + 0 + 0))
    as [Hd | Hd]; [right | left; apply Hz; exact Hd].
  rewrite (Hq Hd).
  assert (P1 : 0 <= lf * VMAX p) by (apply Qmult_le_0_compat; lra).
  assert (P2 : 0 <= lm * VMAX p) by (apply Qmult_le_0_compat; lra).
  assert (P3 : 0 <= ld * VMAX p) by (apply Qmult_le_0_compat; lra).
  split.
  - apply Qle_shift_div_l; [lra | ]. lra.
  - apply Qle_shift_div_r; [lra | ]. lra.
Qed.

Lemma aggregate_plateau (zo : bool) (p : FuzzyPlayer) (xe ya v : Q) :
  mf_x_map zo p xe X.far_right == 0 -> mf_x_map zo p xe X.right == 0 ->
  mf_x_map zo p xe X.center == 0 -> mf_x_map zo p xe X.left == 0 ->
  mf_x_map zo p xe X.far_left == 1 ->
  tsk_aggregate zo p xe ya = Some v ->
  v == - VMAX p.
Proof.
  intros Hfr Hr Hc Hl Hfl E.
  pose proof (tsk_aggregate_pulls zo p xe ya) as HP. cbv zeta in HP.
  unfold left_pull, right_pull in HP.
  destruct HP as [v' [E' [Hz Hq]]]. rewrite E in E'. injection E' as <-.
  rewrite (gated_zero (mf_x_map zo p xe X.far_right)) in * by lra.
  rewrite (gated_zero (mf_x_map zo p xe X.center)) in * by lra.
  rewrite !(gated_min_zero _ _ Hr) in *.
  rewrite !(gated_min_zero _ _ Hl) in *.
  rewrite Hfl in Hq. change (gated 1) with 1 in Hq.
  rewrite Hq by lra. field.
Qed.

Lemma aggregate_centre_only (zo : bool) (p : FuzzyPlayer) (xe ya v : Q) :
  mf_x_map zo p xe X.far_right == 0 -> mf_x_map zo p xe X.right == 0 ->
  mf_x_map zo p xe X.left == 0 -> mf_x_map zo p xe X.far_left == 0 ->
  tsk_aggregate zo p xe ya = Some v ->
  v == 0.
Proof.
  intros Hfr Hr Hl Hfl E.
  pose proof (tsk_aggregate_pulls zo p xe ya) as HP. cbv zeta in HP.
  unfold left_pull, right_pull in HP.
  destruct HP as [v' [E' [Hz Hq]]]. rewrite E in E'. injection E' as <-.
  rewrite (gated_zero (mf_x_map zo p xe X.far_right)) in * by lra.
  rewrite (gated_zero (mf_x_map zo p xe X.far_left)) in * by lra.
  rewrite !(gated_min_zero _ _ Hr) in *.
  rewrite !(gated_min_zero _ _ Hl) in *.
  destruct (Qlt_le_dec (1 # 1000000000)
              (0 + 0 + 0 + 0 + (0 + 0) + 0 + 0 +
               gated (mf_x_map zo p xe X.center))) as [Hd | Hd].
  - rewrite (Hq Hd). field. lra.
  - rewrite (Hz Hd). reflexivity.
Qed.

Lemma tsk_cutoff_zero (v : Q) : v == 0 -> tsk_cutoff v = 0.
Proof.
  intros Hv. unfold tsk_cutoff.
  destruct (ltb_spec (Qabs v) cutoff_v) as [_ | Hn]; [reflexivity | ].
  exfalso. apply Hn. rewrite Hv. reflexivity.
Qed.

Lemma tsk_cutoff_vmax (p : FuzzyPlayer) (v : Q) :
  v == - VMAX p -> tsk_cutoff v == - VMAX p.
Proof.
  intros Hv. unfold tsk_cutoff.
  destruct (ltb_spec (Qabs v) cutoff_v) as [Hlt | _]; [ | exact Hv].
  rewrite Hv, Qabs_opp in Hlt. rewrite (VMAX_small p Hlt). reflexivity.
Qed.

(** Zones of the horizontal shapes. *)
Lemma x_zone_left (zo : bool) (p : FuzzyPlayer) (x : Q) :
  (0 < surface_width (board p))%Z ->
  0.05 * span p + 1 <= x <= span p ->
  mf_x_map zo p x X.far_right == 0 /\ mf_x_map zo p x X.right == 0 /\
  mf_x_map zo p x X.center == 0.
Proof.
  intros Hw Hx. pose proof (span_pos p (W_pos p Hw)) as Hs.
  repeat split; apply mf_x_const; auto; try lra; intros u Hu Hn; simpl.
  - apply trapmf1_zero_high; lra.
  - apply trimf1_zero_outside; lra.
  - apply trimf1_zero_outside; lra.
Qed.

Lemma x_zone_plateau (zo : bool) (p : FuzzyPlayer) (x : Q) :
  (0 < surface_width (board p))%Z ->
  0.22 * span p + 1 <= x <= span p ->
  mf_x_map zo p x X.left == 0 /\ mf_x_map zo p x X.far_left == 1.
Proof.
  intros Hw Hx. pose proof (span_pos p (W_pos p Hw)) as Hs.
  split; apply mf_x_const; auto; try lra; intros u Hu Hn; simpl.
  - apply trimf1_zero_outside; lra.
  - apply trapmf1_plateau; lra.
Qed.

Lemma x_zone_centre (zo : bool) (p : FuzzyPlayer) (x : Q) :
  (0 < surface_width (board p))%Z ->
  Qabs x <= 0.035 * span p - 1 ->
  mf_x_map zo p x X.far_right == 0 /\ mf_x_map zo p x X.right == 0 /\
  mf_x_map zo p x X.left == 0 /\ mf_x_map zo p x X.far_left == 0.
Proof.
  intros Hw Hx. pose proof (span_pos p (W_pos p Hw)) as Hs.
  apply Qabs_Qle_condition in Hx.
  repeat split; apply mf_x_const; auto; try lra; intros u Hu Hn; simpl.
  - apply trapmf1_zero_high; lra.
  - apply trimf1_zero_outside; lra.
  - apply trimf1_zero_outside; lra.
  - apply trapmf1_zero_low; lra.
Qed.

(** Property X12.  Close to the corrected target the inference holds
    still: only the centre label can be active there. *)
Theorem tsk_velocity_hold_band (zo : bool) (p : FuzzyPlayer) (x_val y_abs : Q) :
  (0 < surface_width (board p))%Z ->
  Qabs (x_edge_of zo p x_val y_abs) <= 0.035 * span p - 1 ->
  tsk_velocity zo p x_val y_abs = Some 0.
Proof.
  intros Hw Hx.
  destruct (x_zone_centre zo p _ Hw Hx) as [Hfr [Hr [Hl Hfl]]].
  unfold tsk_velocity.
  destruct (tsk_aggregate_total zo p (x_edge_of zo p x_val y_abs) y_abs)
    as [v E].
  rewrite E. simpl. f_equal. apply tsk_cutoff_zero.
  exact (aggregate_centre_only zo p _ _ v Hfr Hr Hl Hfl E).
Qed.

Lemma tsk_aggregate_left_pull (zo : bool) (p : FuzzyPlayer) (xe ya v : Q) :
  (0 < surface_width (board p))%Z -> 0 <= VMAX p ->
  0.05 * span p + 1 <= xe <= span p ->
  tsk_aggregate zo p xe ya = Some v ->
  v = 0 \/ - VMAX p <= v <= - (0.7 * VMAX p).
Proof.
  intros Hw HV Hx E.
  destruct (x_zone_left zo p xe Hw Hx) as [Hfr [Hr Hc]].
  exact (aggregate_left_zone zo p xe ya v HV Hfr Hr Hc E).
Qed.

Lemma tsk_cutoff_cases (v : Q) : tsk_cutoff v = 0 \/ tsk_cutoff v = v.
Proof. unfold tsk_cutoff. destruct (Py.ltb _ _); auto. Qed.

(** Away from the centre band the inference pulls towards the corrected
    target with at least 70 percent of the max speed, or not at all. *)
Lemma tsk_velocity_pull (zo : bool) (p : FuzzyPlayer) (x_val y_abs : Q) :
  (0 < surface_width (board p))%Z ->
  (0 <= max_speed (racket p))%Z ->
  exists u,
    tsk_velocity zo p x_val y_abs = Some u /\
    (0.05 * span p + 1 <= x_edge_of zo p x_val y_abs <= span p ->
     u == 0 \/ - VMAX p <= u <= - (0.7 * VMAX p)) /\
    (- span p <= x_edge_of zo p x_val y_abs <= - (0.05 * span p + 1) ->
     u == 0 \/ 0.7 * VMAX p <= u <= VMAX p).
Proof.
  intros Hw Hms. pose proof (VMAX_nonneg p Hms) as HV.
  set (xe := x_edge_of zo p x_val y_abs).
  destruct (tsk_aggregate_total zo p xe y_abs) as [v E].
  exists (tsk_cutoff v). split.
  { unfold tsk_velocity. fold xe. now rewrite E. }
  split.
  - intros Hx.
    destruct (tsk_aggregate_left_pull zo p xe y_abs v Hw HV Hx E) as [-> | Hv].
    + left. reflexivity.
    + destruct (tsk_cutoff_cases v) as [-> | ->]; [now left | now right].
  - intros Hx.
    destruct (tsk_aggregate_total zo p (- xe) y_abs) as [v' E'].
    assert (Hx' : 0.05 * span p + 1 <= - xe <= span p) by lra.
    pose proof (tsk_aggregate_mirror zo p (- xe) xe y_abs v' v Hw
                  ltac:(ring) E' E) as Hm.
    destruct (tsk_cutoff_cases v) as [-> | ->]; [left; reflexivity | ].
    destruct (tsk_aggregate_left_pull zo p (- xe) y_abs v' Hw HV Hx' E')
      as [-> | Hv]; [left | right]; lra.
Qed.

Lemma edge_shift_towards (zo : bool) (p : FuzzyPlayer) (y_abs x_val : Q) :
  (0 <= width (racket p))%Z -> (0 < surface_height (board p))%Z ->
  0 <= x_val ->
  x_val - 0.225 * PW p <= x_edge_of zo p x_val y_abs <= x_val.
Proof.
  intros Hpw Hh Hx. pose proof (PW_nonneg p Hpw) as HP.
  pose proof (edge_weight_range zo p y_abs Hh) as [Hw0 Hw1].
  assert (Hm : 0 <= edge_weight zo p y_abs * (0.25 * PW p))
    by (apply Qmult_le_0_compat; lra).
  assert (Hle : edge_weight zo p y_abs * (0.25 * PW p) <= 0.225 * PW p).
  { assert (0 <= (0.9 - edge_weight zo p y_abs) * (0.25 * PW p))
      by (apply Qmult_le_0_compat; lra). lra. }
  destruct (copysign_cases _ x_val Hm) as [_ Hpos].
  fold (edge_shift zo p y_abs x_val) in Hpos.
  unfold x_edge_of. rewrite (Hpos Hx). lra.
Qed.

Lemma boosted_at_vmax (p : FuzzyPlayer) (x y v : Q) :
  0 <= VMAX p ->
  (v == - VMAX p -> boosted p x y v == - VMAX p) /\
  (v == VMAX p -> boosted p x y v == VMAX p).
Proof.
  intros HV.
  destruct (clamp_spec (VMAX p) (v * boost_gain) HV) as [_ [_ [Hhi Hlo]]].
  unfold boost_gain in *.
  split; intros Hv; destruct (boosted_cases p x y v) as [B | B]; rewrite B;
    try exact Hv.
  - apply Hlo. rewrite Hv. lra.
  - apply Hhi. rewrite Hv. lra.
Qed.

Lemma base_velocity_far_left (zo : bool) (p : FuzzyPlayer) (x y v : Q) :
  (0 < surface_width (board p))%Z ->
  (0 <= width (racket p))%Z -> (0 < surface_height (board p))%Z ->
  0.22 * span p + 1 + 0.225 * PW p <= x <= span p ->
  base_velocity (tsk_velocity zo) p x y = Some v ->
  v == - VMAX p.
Proof.
  intros Hw Hpw Hh Hx. pose proof (span_pos p (W_pos p Hw)) as Hs.
  pose proof (PW_nonneg p Hpw) as HP.
  assert (Hx0 : 0 <= x) by lra.
  pose proof (edge_shift_towards zo p y x Hpw Hh Hx0) as He.
  unfold base_velocity.
  destruct (ltb_spec (Qabs x) dead_x) as [Hd | _].
  { rewrite Qabs_pos in Hd by exact Hx0. unfold dead_x in Hd. exfalso. lra. }
  unfold tsk_velocity.
  destruct (tsk_aggregate zo p (x_edge_of zo p x y) y) as [u | ] eqn:E;
    [ | discriminate].
  simpl. intros Ev. injection Ev as <-.
  apply tsk_cutoff_vmax.
  assert (Hz : 0.05 * span p + 1 <= x_edge_of zo p x y <= span p) by lra.
  assert (Hp : 0.22 * span p + 1 <= x_edge_of zo p x y <= span p) by lra.
  destruct (x_zone_left zo p _ Hw Hz) as [Hfr [Hr Hc]].
  destruct (x_zone_plateau zo p _ Hw Hp) as [Hl Hfl].
  exact (aggregate_plateau zo p _ _ u Hfr Hr Hc Hl Hfl E).
Qed.

(** Property X13.  A ball far to one side, but within half a board width,
    gets the full speed: [act] settles on exactly [-VMAX] or [+VMAX]. *)
Theorem act_full_speed (zo : bool) (rc : Q -> Z) (p : FuzzyPlayer) (dx dy : Q) :
  (0 < surface_width (board p))%Z -> (0 < surface_height (board p))%Z ->
  (0 <= width (racket p))%Z -> (0 <= max_speed (racket p))%Z ->
  exists p' a,
    act zo rc p dx dy = Some (p', a) /\
    (0.22 * span p + 1 + 0.225 * PW p <= dx <= span p ->
     velocity a == - VMAX p) /\
    (- span p <= dx <= - (0.22 * span p + 1 + 0.225 * PW p) ->
     velocity a == VMAX p).
Proof.
  intros Hw Hh Hpw Hms. pose proof (VMAX_nonneg p Hms) as HV.
  destruct (base_velocity_total zo p (Py.float dx) (Py.float (Qabs dy)))
    as [v E].
  destruct (act_velocity zo rc p dx dy v E) as [p' [a [A Ev]]].
  exists p', a. split; [exact A | ]. rewrite Ev.
  destruct (boosted_at_vmax p (Py.float dx) (Py.float (Qabs dy)) v HV)
    as [Bl Br].
  split; intros Hx.
  - apply Bl.
    apply (base_velocity_far_left zo p (Py.float dx) (Py.float (Qabs dy)) v);
      auto.
    rewrite float_eq. exact Hx.
  - apply Br.
    destruct (base_velocity_total zo p (Py.float (- dx)) (Py.float (Qabs dy)))
      as [v' E'].
    assert (Hm : Py.float dx == - Py.float (- dx))
      by (rewrite !float_eq; ring).
    pose proof (base_velocity_mirror zo p (Py.float (- dx)) (Py.float dx)
                  (Py.float (Qabs dy)) v' v Hw Hm E' E) as Hv.
    rewrite Hv.
    rewrite (base_velocity_far_left zo p (Py.float (- dx))
               (Py.float (Qabs dy)) v'); auto; [ring | ].
    rewrite float_eq. lra.
Qed.

Lemma x_zone_beyond (zo : bool) (p : FuzzyPlayer) (x : Q) :
  (0 < surface_width (board p))%Z -> span p < x ->
  (zo = true -> forall n, mf_x_map zo p x n == 0) /\
  (zo = false ->
     mf_x_map zo p x X.far_right == 0 /\ mf_x_map zo p x X.right == 0 /\
     mf_x_map zo p x X.center == 0 /\ mf_x_map zo p x X.left == 0 /\
     mf_x_map zo p x X.far_left == 1).
Proof.
  intros Hw Hx. pose proof (span_pos p (W_pos p Hw)) as Hs. split.
  - intros Hzo n. destruct (mf_x_outside zo p n x Hw) as [Ht _].
    rewrite Ht; [reflexivity | now right | exact Hzo].
  - intros Hzo.
    repeat split;
      (match goal with |- mf_x_map _ _ _ ?n == _ =>
         destruct (mf_x_outside zo p n x Hw) as [_ Hf] end);
      apply (Hf Hx Hzo); intros u Hu; simpl.
    + apply trapmf1_zero_high; lra.
    + apply trimf1_zero_outside; lra.
    + apply trimf1_zero_outside; lra.
    + apply trimf1_zero_outside; lra.
    + apply trapmf1_plateau; lra.
Qed.

Lemma base_velocity_beyond (zo : bool) (p : FuzzyPlayer) (x y v : Q) :
  (0 < surface_width (board p))%Z ->
  (0 <= width (racket p))%Z -> (0 < surface_height (board p))%Z ->
  span p + 0.225 * PW p < x -> dead_x <= x ->
  base_velocity (tsk_velocity zo) p x y = Some v ->
  v == if zo then 0 else - VMAX p.
Proof.
  intros Hw Hpw Hh Hx Hdead. pose proof (span_pos p (W_pos p Hw)) as Hs.
  pose proof (PW_nonneg p Hpw) as HP.
  assert (Hx0 : 0 <= x) by lra.
  pose proof (edge_shift_towards zo p y x Hpw Hh Hx0) as He.
  unfold base_velocity.
  destruct (ltb_spec (Qabs x) dead_x) as [Hd | _].
  { rewrite Qabs_pos in Hd by exact Hx0. exfalso. lra. }
  unfold tsk_velocity.
  destruct (tsk_aggregate zo p (x_edge_of zo p x y) y) as [u | ] eqn:E;
    [ | discriminate].
  simpl. intros Ev. injection Ev as <-.
  assert (Hb : span p < x_edge_of zo p x y) by lra.
  destruct (x_zone_beyond zo p _ Hw Hb) as [Ht Hf].
  destruct zo.
  - rewrite tsk_cutoff_zero; [reflexivity | ].
    apply (aggregate_centre_only true p (x_edge_of true p x y) y u);
      auto.
  - destruct (Hf eq_refl) as [Hfr [Hr [Hc [Hl Hfl]]]].
    apply tsk_cutoff_vmax.
    exact (aggregate_plateau false p (x_edge_of false p x y) y u
             Hfr Hr Hc Hl Hfl E).
Qed.

(** Property X14.  A ball farther to one side than half the board width
    plus the largest correction lies outside the horizontal universe: with
    scikit-fuzzy's [zero_outside_x] no rule fires and the paddle is told
    not to move, without it the paddle gets the full speed. *)
Theorem act_beyond_universe (zo : bool) (rc : Q -> Z) (p : FuzzyPlayer)
    (dx dy : Q) :
  (0 < surface_width (board p))%Z -> (0 < surface_height (board p))%Z ->
  (0 <= width (racket p))%Z -> (0 <= max_speed (racket p))%Z ->
  span p + 0.225 * PW p < Qabs dx -> dead_x <= Qabs dx ->
  exists p' a,
    act zo rc p dx dy = Some (p', a) /\
    (zo = true -> velocity a == 0) /\
    (zo = false -> 0 < dx -> velocity a == - VMAX p) /\
    (zo = false -> dx < 0 -> velocity a == VMAX p).
Proof.
  intros Hw Hh Hpw Hms Hfar Hdead. pose proof (VMAX_nonneg p Hms) as HV.
  destruct (base_velocity_total zo p (Py.float dx) (Py.float (Qabs dy)))
    as [v E].
  destruct (act_velocity zo rc p dx dy v E) as [p' [a [A Ev]]].
  exists p', a. split; [exact A | ]. rewrite Ev.
  destruct (boosted_at_vmax p (Py.float dx) (Py.float (Qabs dy)) v HV)
    as [Bl Br].
  assert (Hcase : v == if zo then 0 else
                         if Qlt_le_dec dx 0 then VMAX p else - VMAX p).
  { destruct (Qlt_le_dec dx 0) as [Hneg | Hpos].
    - rewrite Qabs_neg in Hfar, Hdead by lra.
      destruct (base_velocity_total zo p (Py.float (- dx))
                  (Py.float (Qabs dy))) as [v' E'].
      assert (Hm : Py.float dx == - Py.float (- dx))
        by (rewrite !float_eq; ring).
      rewrite (base_velocity_mirror zo p (Py.float (- dx)) (Py.float dx)
                 (Py.float (Qabs dy)) v' v Hw Hm E' E).
      rewrite (base_velocity_beyond zo p (Py.float (- dx))
                 (Py.float (Qabs dy)) v'); auto;
        try (rewrite float_eq; lra).
      destruct zo; ring.
    - rewrite Qabs_pos in Hfar, Hdead by lra.
      apply (base_velocity_beyond zo p (Py.float dx) (Py.float (Qabs dy)) v);
        auto; rewrite float_eq; lra. }
  split; [ | split].
  - intros ->. assert (Hv : v == 0) by exact Hcase.
    destruct (boosted_spec p (Py.float dx) (Py.float (Qabs dy)) v) as [_ Hno].
    rewrite Hno; [exact Hv | ]. intros [_ [Hnz _]]. contradiction.
  - intros -> Hpos. apply Bl.
    destruct (Qlt_le_dec dx 0); [exfalso; lra | exact Hcase].
  - intros -> Hneg. apply Br.
    destruct (Qlt_le_dec dx 0); [exact Hcase | exfalso; lra].
Qed.


(** Property X2.  [Racket.move] keeps a paddle that is on the board on
    the board, and changes neither its width nor its max speed. *)
Theorem Racket_move_on_board (rc : Q -> Z) (r : Racket) (x : Q) (b : Board) :
  stores_integers rc -> stores_in_order rc ->
  on_board r b ->
  on_board (Racket_move rc r x b) b /\
  width (Racket_move rc r x b) = width r /\
  max_speed (Racket_move rc r x b) = max_speed r.
Proof. exact (move_on_board rc r x b). Qed.

(** Property X3.  [Racket.move] reaches an integer target exactly when
    it is within [max_speed] and the paddle fits on the board there. *)
Theorem Racket_move_arrives (rc : Q -> Z) (r : Racket) (z : Z) (b : Board) :
  stores_integers rc -> stores_in_order rc ->
  (Z.abs (z - rect_x r) <= max_speed r)%Z ->
  (0 <= z)%Z -> (z + width r <= surface_width b)%Z ->
  rect_x (Racket_move rc r (inject_Z z) b) = z.
Proof. exact (move_arrives rc r z b). Qed.

(** Property X4.  A target at least [max_speed] away moves the paddle
    by exactly [max_speed], provided that step stays on the board. *)
Theorem Racket_move_full_step (rc : Q -> Z) (r : Racket) (x : Q) (b : Board) :
  stores_integers rc -> stores_in_order rc ->
  (0 <= max_speed r)%Z ->
  (inject_Z (rect_x r + max_speed r) <= x ->
   (0 <= rect_x r + max_speed r)%Z ->
   (rect_x r + width r + max_speed r <= surface_width b)%Z ->
   rect_x (Racket_move rc r x b) = (rect_x r + max_speed r)%Z) /\
  (x <= inject_Z (rect_x r - max_speed r) ->
   (0 <= rect_x r - max_speed r)%Z ->
   (rect_x r + width r - max_speed r <= surface_width b)%Z ->
   rect_x (Racket_move rc r x b) = (rect_x r - max_speed r)%Z).
Proof. exact (move_full_step rc r x b). Qed.

(** Property X5.  A full step that would cross the board's edge is
    dropped whole: the paddle stays where it is, short of the wall. *)
Theorem Racket_move_blocked (rc : Q -> Z) (r : Racket) (x : Q) (b : Board) :
  stores_integers rc -> stores_in_order rc ->
  (0 <= max_speed r)%Z ->
  (inject_Z (rect_x r + max_speed r) <= x ->
   (surface_width b < rect_x r + width r + max_speed r)%Z ->
   rect_x (Racket_move rc r x b) = rect_x r) /\
  (x <= inject_Z (rect_x r - max_speed r) ->
   (rect_x r - max_speed r < 0)%Z ->
   rect_x (Racket_move rc r x b) = rect_x r).
Proof. exact (move_blocked rc r x b). Qed.

(** Property X8.  One call of [FuzzyPlayer.act] keeps the paddle on the
    board and changes nothing of the player but the paddle's position and
    the remembered [|dy|]. *)
Theorem act_keeps_paddle_on_board (zo : bool) (rc : Q -> Z)
    (p : FuzzyPlayer) (dx dy : Q) :
  stores_integers rc -> stores_in_order rc ->
  on_board (racket p) (board p) ->
  exists p' a,
    act zo rc p dx dy = Some (p', a) /\
    on_board (racket p') (board p') /\
    board p' = board p /\
    width (racket p') = width (racket p) /\
    max_speed (racket p') = max_speed (racket p) /\
    prev_y_abs p' = Some (Py.float (Qabs dy)).
Proof. exact (act_on_board zo rc p dx dy). Qed.

(** ** Instances on the program's own board *)

Lemma main_racket_on_board : on_board main_racket main_board.
Proof. unfold on_board. simpl. lia. Qed.


Lemma Racket_move_on_board_witness :
  stores_integers rect_trunc /\ stores_in_order rect_trunc /\
  on_board main_racket main_board /\
  on_board (Racket_move rect_trunc main_racket 350 main_board) main_board.
Proof.
  pose proof rect_trunc_stores_integers as H1.
  pose proof rect_trunc_stores_in_order as H2.
  pose proof main_racket_on_board as H3.
  destruct (Racket_move_on_board rect_trunc main_racket 350 main_board H1 H2 H3)
    as [A _].
  exact (conj H1 (conj H2 (conj H3 A))).
Defined.

Lemma Racket_move_arrives_witness :
  stores_integers rect_trunc /\ stores_in_order rect_trunc /\
  (Z.abs (393 - rect_x main_racket) <= max_speed main_racket)%Z /\
  (0 <= 393)%Z /\ (393 + width main_racket <= surface_width main_board)%Z /\
  rect_x (Racket_move rect_trunc main_racket (inject_Z 393) main_board) = 393%Z.
Proof.
  pose proof rect_trunc_stores_integers as H1.
  pose proof rect_trunc_stores_in_order as H2.
  assert (H3 : (Z.abs (393 - rect_x main_racket) <= max_speed main_racket)%Z)
    by (simpl; lia).
  assert (H4 : (0 <= 393)%Z) by lia.
  assert (H5 : (393 + width main_racket <= surface_width main_board)%Z)
    by (simpl; lia).
  exact (conj H1 (conj H2 (conj H3 (conj H4 (conj H5
           (Racket_move_arrives rect_trunc main_racket 393 main_board
              H1 H2 H3 H4 H5)))))).
Defined.

Lemma Racket_move_full_step_witness :
  stores_integers rect_trunc /\ stores_in_order rect_trunc /\
  (0 <= max_speed main_racket)%Z /\
  rect_x (Racket_move rect_trunc main_racket 700 main_board) = 410%Z.
Proof.
  pose proof rect_trunc_stores_integers as H1.
  pose proof rect_trunc_stores_in_order as H2.
  assert (H3 : (0 <= max_speed main_racket)%Z) by (simpl; lia).
  destruct (Racket_move_full_step rect_trunc main_racket 700 main_board
              H1 H2 H3) as [A _].
  refine (conj H1 (conj H2 (conj H3 (A _ _ _)))).
  - vm_compute. discriminate.
  - simpl. lia.
  - simpl. lia.
Defined.

Lemma Racket_move_blocked_witness :
  stores_integers rect_trunc /\ stores_in_order rect_trunc /\
  (0 <= max_speed (mkRacket 715 80 10))%Z /\
  rect_x (Racket_move rect_trunc (mkRacket 715 80 10) 800 main_board) = 715%Z.
Proof.
  pose proof rect_trunc_stores_integers as H1.
  pose proof rect_trunc_stores_in_order as H2.
  assert (H3 : (0 <= max_speed (mkRacket 715 80 10))%Z) by (simpl; lia).
  destruct (Racket_move_blocked rect_trunc (mkRacket 715 80 10) 800 main_board
              H1 H2 H3) as [A _].
  refine (conj H1 (conj H2 (conj H3 (A _ _)))).
  - vm_compute. discriminate.
  - simpl. lia.
Defined.

Lemma NaiveOponent_track_reaches_witness :
  stores_integers rect_trunc /\ stores_in_order rect_trunc /\
  (0 <= max_speed main_racket)%Z /\ on_board main_racket main_board /\
  (0 <= 375)%Z /\ (375 + width main_racket <= surface_width main_board)%Z /\
  Z.abs (375 - rect_x (NaiveOponent_track rect_trunc main_racket main_board
                         375 [(5, 20); (15, 20); (25, 20)]%Z)) = 0%Z.
Proof.
  pose proof rect_trunc_stores_integers as H1.
  pose proof rect_trunc_stores_in_order as H2.
  assert (H3 : (0 <= max_speed main_racket)%Z) by (simpl; lia).
  pose proof main_racket_on_board as H4.
  assert (H5 : (0 <= 375)%Z) by lia.
  assert (H6 : (375 + width main_racket <= surface_width main_board)%Z)
    by (simpl; lia).
  pose proof (NaiveOponent_track_reaches rect_trunc main_board 375
                [(5, 20); (15, 20); (25, 20)]%Z main_racket
                H1 H2 H3 H4 H5 H6) as HT.
  cbv zeta in HT. destruct HT as [A _].
  exact (conj H1 (conj H2 (conj H3 (conj H4 (conj H5 (conj H6 A)))))).
Defined.

Lemma handle_keys_moves_witness :
  stores_integers rect_trunc /\ stores_in_order rect_trunc /\
  (0 <= max_speed main_racket <= width main_racket)%Z /\
  on_board main_racket main_board /\
  rect_x (handle_keys rect_trunc main_racket main_board K_LEFT)
    = Z.max 0 (rect_x main_racket - max_speed main_racket).
Proof.
  pose proof rect_trunc_stores_integers as H1.
  pose proof rect_trunc_stores_in_order as H2.
  assert (H3 : (0 <= max_speed main_racket <= width main_racket)%Z)
    by (simpl; lia).
  pose proof main_racket_on_board as H4.
  destruct (handle_keys_moves rect_trunc main_racket main_board H1 H2 H3 H4)
    as [A _].
  exact (conj H1 (conj H2 (conj H3 (conj H4 A)))).
Defined.

Lemma act_keeps_paddle_on_board_witness :
  stores_integers rect_trunc /\ stores_in_order rect_trunc /\
  on_board (racket main_player) (board main_player) /\
  exists p' a,
    act true rect_trunc main_player 50 10 = Some (p', a) /\
    on_board (racket p') (board p').
Proof.
  pose proof rect_trunc_stores_integers as H1.
  pose proof rect_trunc_stores_in_order as H2.
  pose proof main_racket_on_board as H3.
  destruct (act_keeps_paddle_on_board true rect_trunc main_player 50 10
              H1 H2 H3) as [p' [a [A [B _]]]].
  refine (conj H1 (conj H2 (conj H3 _))). exists p', a. exact (conj A B).
Defined.

Lemma act_paddle_step_witness :
  stores_integers rect_trunc /\ stores_in_order rect_trunc /\
  (0 <= max_speed (racket main_player))%Z /\
  exists p' a,
    act true rect_trunc main_player 50 10 = Some (p', a) /\
    (Z.abs (rect_x (racket p') - rect_x (racket main_player))
     <= max_speed (racket main_player))%Z.
Proof.
  pose proof rect_trunc_stores_integers as H1.
  pose proof rect_trunc_stores_in_order as H2.
  assert (H3 : (0 <= max_speed (racket main_player))%Z) by (simpl; lia).
  destruct (act_paddle_step true rect_trunc main_player 50 10 H1 H2 H3)
    as [p' [a [A [B _]]]].
  refine (conj H1 (conj H2 (conj H3 _))). exists p', a. exact (conj A B).
Defined.

Lemma run_state_on_board_witness :
  stores_integers rect_trunc /\ stores_in_order rect_trunc /\
  on_board (racket main_player) (board main_player) /\
  exists p',
    run_state true rect_trunc main_player [(50, 10); (3, 100)] = Some p' /\
    on_board (racket p') (board p').
Proof.
  pose proof rect_trunc_stores_integers as H1.
  pose proof rect_trunc_stores_in_order as H2.
  pose proof main_racket_on_board as H3.
  destruct (run_state_on_board true rect_trunc [(50, 10); (3, 100)] H1 H2
              main_player H3) as [p' [A [B _]]].
  refine (conj H1 (conj H2 (conj H3 _))). exists p'. exact (conj A B).
Defined.

Lemma mf_y_degrees_and_sum_witness :
  (0 < surface_height (board main_player))%Z /\
  0 <= 100 <= H main_player /\
  (forall n, 0 <= mf_y_map true main_player 100 n <= 1) /\
  0 < mf_y_sum true main_player 100 <= 2.
Proof.
  assert (H1 : (0 < surface_height (board main_player))%Z) by reflexivity.
  assert (H2 : 0 <= 100 <= H main_player)
    by (split; vm_compute; discriminate).
  exact (conj H1 (conj H2 (mf_y_degrees_and_sum true main_player 100 H1 H2))).
Defined.

Lemma tsk_velocity_hold_band_witness :
  (0 < surface_width (board main_player))%Z /\
  Qabs (x_edge_of true main_player 20 10) <= 0.035 * span main_player - 1 /\
  tsk_velocity true main_player 20 10 = Some 0.
Proof.
  assert (H1 : (0 < surface_width (board main_player))%Z) by reflexivity.
  assert (H2 : Qabs (x_edge_of true main_player 20 10)
               <= 0.035 * span main_player - 1)
    by (vm_compute; discriminate).
  exact (conj H1 (conj H2 (tsk_velocity_hold_band true main_player 20 10 H1 H2))).
Defined.

Lemma act_full_speed_witness :
  (0 < surface_width (board main_player))%Z /\
  (0 < surface_height (board main_player))%Z /\
  (0 <= width (racket main_player))%Z /\
  (0 <= max_speed (racket main_player))%Z /\
  exists p' a,
    act true rect_trunc main_player 300 10 = Some (p', a) /\
    velocity a == - VMAX main_player.
Proof.
  assert (H1 : (0 < surface_width (board main_player))%Z) by reflexivity.
  assert (H2 : (0 < surface_height (board main_player))%Z) by reflexivity.
  assert (H3 : (0 <= width (racket main_player))%Z) by (simpl; lia).
  assert (H4 : (0 <= max_speed (racket main_player))%Z) by (simpl; lia).
  destruct (act_full_speed true rect_trunc main_player 300 10 H1 H2 H3 H4)
    as [p' [a [A [B _]]]].
  refine (conj H1 (conj H2 (conj H3 (conj H4 _)))). exists p', a.
  refine (conj A (B _)). split; vm_compute; discriminate.
Defined.

Lemma act_beyond_universe_witness :
  (0 < surface_width (board main_player))%Z /\
  (0 < surface_height (board main_player))%Z /\
  (0 <= width (racket main_player))%Z /\
  (0 <= max_speed (racket main_player))%Z /\
  span main_player + 0.225 * PW main_player < Qabs 500 /\
  dead_x <= Qabs 500 /\
  exists p' a,
    act true rect_trunc main_player 500 10 = Some (p', a) /\
    velocity a == 0.
Proof.
  assert (H1 : (0 < surface_width (board main_player))%Z) by reflexivity.
  assert (H2 : (0 < surface_height (board main_player))%Z) by reflexivity.
  assert (H3 : (0 <= width (racket main_player))%Z) by (simpl; lia).
  assert (H4 : (0 <= max_speed (racket main_player))%Z) by (simpl; lia).
  assert (H5 : span main_player + 0.225 * PW main_player < Qabs 500)
    by (vm_compute; reflexivity).
  assert (H6 : dead_x <= Qabs 500) by (vm_compute; discriminate).
  destruct (act_beyond_universe true rect_trunc main_player 500 10
              H1 H2 H3 H4 H5 H6) as [p' [a [A [B _]]]].
  refine (conj H1 (conj H2 (conj H3 (conj H4 (conj H5 (conj H6 _)))))).
  exists p', a. exact (conj A (B eq_refl)).
Defined.

(** ** The controller in binary64 *)

Import PrimFloat.

(** Claim C10.  On the program's own board (800 by 400, paddle width 80,
    max speed 10) the first call [act(32, 176)] of a new controller settles
    on -10.000000000000002 in binary64: the accumulated sums are
    -4.4000000000000021 and 0.44000000000000017, their quotient rounds
    beyond -10, and no clamp runs on the path without boost, so the
    magnitude exceeds [VMAX = 10].  (Stated for both settings of
    [zero_outside_x].) *)
Theorem act_velocity_exceeds_vmax :
  B64.VMAX (B64.main_player None) = 10%float /\
  (B64.tsk_sums true (B64.main_player None)
     (32 - B64.edge_shift true (B64.main_player None) 176 32) 176
   = (-4.4000000000000021, 0.44000000000000017)%float /\
   B64.velocity
     (snd (B64.act true B64.rect_trunc (B64.main_player None) 32 176))
   = (-10.000000000000002)%float) /\
  (B64.tsk_sums false (B64.main_player None)
     (32 - B64.edge_shift false (B64.main_player None) 176 32) 176
   = (-4.4000000000000021, 0.44000000000000017)%float /\
   B64.velocity
     (snd (B64.act false B64.rect_trunc (B64.main_player None) 32 176))
   = (-10.000000000000002)%float) /\
  (B64.VMAX (B64.main_player None) <? abs (-10.000000000000002))%float = true.
Proof. vm_compute. repeat split. Qed.

(** Claim C6 as stated fails in binary64: the boosted velocity can be
    smaller in magnitude than the unboosted one.  On the program's board,
    after [act(32, 200)] the call [act(32, 176)] (same offset beyond the
    dead zone, smaller distance) finds the stored 200, the inference gives
    -10.000000000000002, and the boost and the clamp turn it into -10.
    (Stated for both settings of [zero_outside_x].) *)
Lemma act_boost_below_unboosted :
  (B64.prev_y_abs
     (fst (B64.act true B64.rect_trunc (B64.main_player None) 32 200))
   = Some 200%float /\
   B64.tsk_velocity true
     (fst (B64.act true B64.rect_trunc (B64.main_player None) 32 200))
     32 176
   = (-10.000000000000002)%float /\
   B64.velocity
     (snd (B64.act true B64.rect_trunc
             (fst (B64.act true B64.rect_trunc (B64.main_player None) 32 200))
             32 176))
   = (-10)%float) /\
  (B64.prev_y_abs
     (fst (B64.act false B64.rect_trunc (B64.main_player None) 32 200))
   = Some 200%float /\
   B64.tsk_velocity false
     (fst (B64.act false B64.rect_trunc (B64.main_player None) 32 200))
     32 176
   = (-10.000000000000002)%float /\
   B64.velocity
     (snd (B64.act false B64.rect_trunc
             (fst (B64.act false B64.rect_trunc (B64.main_player None) 32 200))
             32 176))
   = (-10)%float) /\
  (abs (-10.000000000000002) <=? abs (-10))%float = false.
Proof. vm_compute. repeat split. Qed.

